(** * The advisory file lock of the document backend

    A shallow embedding of [backend/src/services/file_lock.py]: the class
    [FileLockManager] with its four methods [acquire_lock], [release_lock],
    [extend_lock] and [get_lock_owner], together with the part of the Redis
    server and of its Lua scripting that the four methods exercise.  Around
    it: [backend/src/dependencies.py], which builds the one manager of a
    process, and [backend/src/middleware/], which decides who may call
    (module [Dependencies] and module [Middleware] below).

    Conventions.
    - A Python [str] and the [bytes] the client library sends for it are both
      a [string]: [user_id] and [file_path] are identified with their UTF-8
      encodings, so [encode] is the identity; [decode] hands back the bytes
      it is given when they are well-formed UTF-8 and raises otherwise.
    - The Redis server is a dictionary from keys to a value and an optional
      absolute expiry, with a logical clock in milliseconds.  A key whose
      expiry has passed is not seen by any command, whether or not the server
      has reclaimed it yet.  Every command, and every script, runs atomically.
    - The clock and the expiries are integers.  The server reads an integer
      argument as a signed 64-bit number and refuses a timeout it cannot
      keep in 64 bits of milliseconds; the clock itself stays far enough
      below that limit for the policy's 60 seconds to fit.
    - The client is the default one: replies come back as [bytes]
      ([decode_responses] is off).
    - A method of the client library either raises ([inl]) or returns ([inr]);
      the methods of [FileLockManager] contain no [try], so an exception of
      the client is an exception of the method. *)

From Stdlib Require Import ZArith Ascii String DecimalString.
From Stdlib Require DecimalZ.
From stdpp Require Import gmap strings list fin_maps.

Open Scope Z_scope.

(** ** The server: keys with expiry *)

Record entry := Entry { value : string; expire_at : option Z }.

(** A key is expired once the clock is past its expiry. *)
Definition live (now : Z) (e : entry) : bool :=
  match expire_at e with
  | None => true
  | Some t => now <=? t
  end.

(** What every command sees under a key. *)
Definition lookup_key (now : Z) (k : string) (d : gmap string entry) : option entry :=
  match d !! k with
  | Some e => if live now e then Some e else None
  | None => None
  end.

Inductive reply :=
  | Status (s : string)
  | Integer (n : Z)
  | Bulk (s : string)
  | Nil.

(** [str(n)] on the Python side, and the server's strict reading of a decimal
    argument (only the canonical spelling of an integer is accepted). *)
Definition py_str (n : Z) : string := NilEmpty.string_of_int (Z.to_int n).

Definition LLONG_MAX : Z := 9223372036854775807.
Definition LLONG_MIN : Z := -9223372036854775808.

Definition string2ll (s : string) : option Z :=
  match NilEmpty.int_of_string s with
  | Some d =>
      let n := Z.of_int d in
      if bool_decide (py_str n = s) && (LLONG_MIN <=? n) && (n <=? LLONG_MAX)
      then Some n else None
  | None => None
  end.

(** A command either fails with an error message or replies, and leaves a
    dictionary behind. *)
Definition outcome : Type := (string + reply) * gmap string entry.

(** SET key value [NX] [EX seconds] *)
Definition cmd_set (now : Z) (k v : string) (nx : bool) (ex : option Z)
    (d : gmap string entry) : outcome :=
  match ex with
  | Some secs =>
      if secs <=? 0 then (inl "ERR invalid expire time in 'set' command"%string, d)
      else if nx && bool_decide (is_Some (lookup_key now k d)) then (inr Nil, d)
      else (inr (Status "OK"), <[k := Entry v (Some (now + 1000 * secs))]> d)
  | None =>
      if nx && bool_decide (is_Some (lookup_key now k d)) then (inr Nil, d)
      else (inr (Status "OK"), <[k := Entry v None]> d)
  end.

(** GET key *)
Definition cmd_get (now : Z) (k : string) (d : gmap string entry) : outcome :=
  match lookup_key now k d with
  | Some e => (inr (Bulk (value e)), d)
  | None => (inr Nil, d)
  end.

(** DEL key *)
Definition cmd_del (now : Z) (k : string) (d : gmap string entry) : outcome :=
  match lookup_key now k d with
  | Some _ => (inr (Integer 1), delete k d)
  | None => (inr (Integer 0), d)
  end.

(** EXPIRE key seconds: refused when the timeout, in milliseconds and added
    to the clock, does not fit in 64 bits; a timeout that is not in the
    future deletes the key. *)
Definition cmd_expire (now : Z) (k : string) (secs : Z) (d : gmap string entry) : outcome :=
  if (LLONG_MAX ÷ 1000 <? secs) || (secs <? LLONG_MIN ÷ 1000)
     || (LLONG_MAX - now <? 1000 * secs)
  then (inl "ERR invalid expire time in 'expire' command"%string, d)
  else
    match lookup_key now k d with
    | None => (inr (Integer 0), d)
    | Some e =>
        if now + 1000 * secs <=? now then (inr (Integer 1), delete k d)
        else (inr (Integer 1), <[k := Entry (value e) (Some (now + 1000 * secs))]> d)
    end.

(** ** The scripts

    The fragment of Lua used by the two scripts of [file_lock.py]. *)

Inductive lua_value :=
  | LNil
  | LBool (b : bool)
  | LNumber (n : Z)
  | LString (s : string).

#[local] Unset Elimination Schemes.
Inductive lua_exp :=
  | KEYS (i : nat)
  | ARGV (i : nat)
  | Num (n : Z)
  | EqOp (a b : lua_exp)
  | redis_call (cmd : string) (args : list lua_exp).
#[local] Set Elimination Schemes.

Inductive lua_stmt :=
  | If (c : lua_exp) (t e : lua_stmt)
  | Return (e : lua_exp).

Definition lua_eq (a b : lua_value) : bool :=
  match a, b with
  | LNil, LNil => true
  | LBool x, LBool y => Bool.eqb x y
  | LNumber x, LNumber y => x =? y
  | LString x, LString y => bool_decide (x = y)
  | _, _ => false
  end.

Definition lua_truthy (v : lua_value) : bool :=
  match v with
  | LNil | LBool false => false
  | _ => true
  end.

(** Tables are indexed from 1; a missing index is nil. *)
Definition lua_index (l : list string) (i : nat) : lua_value :=
  match i with
  | O => LNil
  | S j => match l !! j with Some s => LString s | None => LNil end
  end.

(** A reply as the script sees it, and a script's result as a reply. *)
Definition reply_to_lua (r : reply) : lua_value :=
  match r with
  | Status s => LString s
  | Integer n => LNumber n
  | Bulk s => LString s
  | Nil => LBool false
  end.

Definition lua_to_reply (v : lua_value) : reply :=
  match v with
  | LNil | LBool false => Nil
  | LBool true => Integer 1
  | LNumber n => Integer n
  | LString s => Bulk s
  end.

(** Arguments of [redis.call] are strings, numbers being spelled out. *)
Definition lua_arg (v : lua_value) : option string :=
  match v with
  | LString s => Some s
  | LNumber n => Some (py_str n)
  | _ => None
  end.

(** [redis.call] for the commands the scripts use. *)
Definition call (now : Z) (cmd : string) (args : list lua_value)
    (d : gmap string entry) : outcome :=
  match mapM lua_arg args with
  | None => (inl "ERR Lua redis lib command arguments must be strings or integers"%string, d)
  | Some argv =>
      if bool_decide (cmd = "get"%string) then
        match argv with
        | [k] => cmd_get now k d
        | _ => (inl "ERR wrong number of arguments for 'get' command"%string, d)
        end
      else if bool_decide (cmd = "del"%string) then
        match argv with
        | [k] => cmd_del now k d
        | _ => (inl "ERR wrong number of arguments for 'del' command"%string, d)
        end
      else if bool_decide (cmd = "expire"%string) then
        match argv with
        | [k; s] =>
            match string2ll s with
            | Some secs => cmd_expire now k secs d
            | None => (inl "ERR value is not an integer or out of range"%string, d)
            end
        | _ => (inl "ERR wrong number of arguments for 'expire' command"%string, d)
        end
      else (inl "ERR Unknown Redis command called from script"%string, d)
  end.

Section Script.
Variables (now : Z) (keys argv : list string).

Fixpoint eval_exp (e : lua_exp) (d : gmap string entry)
    : (string + lua_value) * gmap string entry :=
  match e with
  | KEYS i => (inr (lua_index keys i), d)
  | ARGV i => (inr (lua_index argv i), d)
  | Num n => (inr (LNumber n), d)
  | EqOp a b =>
      match eval_exp a d with
      | (inr va, d1) =>
          match eval_exp b d1 with
          | (inr vb, d2) => (inr (LBool (lua_eq va vb)), d2)
          | (inl err, d2) => (inl err, d2)
          end
      | (inl err, d1) => (inl err, d1)
      end
  | redis_call cmd args =>
      let fix eval_args (l : list lua_exp) (d : gmap string entry)
          : (string + list lua_value) * gmap string entry :=
        match l with
        | [] => (inr [], d)
        | a :: l' =>
            match eval_exp a d with
            | (inr v, d1) =>
                match eval_args l' d1 with
                | (inr vs, d2) => (inr (v :: vs), d2)
                | (inl err, d2) => (inl err, d2)
                end
            | (inl err, d1) => (inl err, d1)
            end
        end in
      match eval_args args d with
      | (inr vs, d1) =>
          match call now cmd vs d1 with
          | (inr r, d2) => (inr (reply_to_lua r), d2)
          | (inl err, d2) => (inl err, d2)
          end
      | (inl err, d1) => (inl err, d1)
      end
  end.

Fixpoint exec_stmt (s : lua_stmt) (d : gmap string entry)
    : (string + lua_value) * gmap string entry :=
  match s with
  | If c t e =>
      match eval_exp c d with
      | (inr v, d1) => if lua_truthy v then exec_stmt t d1 else exec_stmt e d1
      | (inl err, d1) => (inl err, d1)
      end
  | Return e => eval_exp e d
  end.
End Script.

(** EVAL script numkeys key... arg... *)
Definition cmd_eval (now : Z) (script : lua_stmt) (keys argv : list string)
    (d : gmap string entry) : outcome :=
  match exec_stmt now keys argv script d with
  | (inr v, d') => (inr (lua_to_reply v), d')
  | (inl err, d') => (inl err, d')
  end.

Inductive command :=
  | SET (k v : string) (nx : bool) (ex : option Z)
  | GET (k : string)
  | EVAL (script : lua_stmt) (keys argv : list string).

Definition run_command (now : Z) (c : command) (d : gmap string entry) : outcome :=
  match c with
  | SET k v nx ex => cmd_set now k v nx ex d
  | GET k => cmd_get now k d
  | EVAL script keys argv => cmd_eval now script keys argv d
  end.

(** ** The client

    The state of the world: the server's dictionary and clock, the commands
    the server has executed so far (oldest first), and the condition of the
    connection.  While [link] holds an exception, every call of the client
    raises it and the request does not reach the server. *)

Inductive exception :=
  | ConnectionError
  | TimeoutError
  | ResponseError (msg : string)
  | AttributeError
  | UnicodeDecodeError.

Record redis := Redis {
  db : gmap string entry;
  clock : Z;
  executed : list command;
  link : option exception
}.

(** Computations that read and update the world and may raise. *)
Definition M (A : Type) : Type := redis -> (exception + A) * redis.

Definition ret {A} (a : A) : M A := fun w => (inr a, w).

Definition raise {A} (e : exception) : M A := fun w => (inl e, w).

Definition bind {A B} (m : M A) (f : A -> M B) : M B :=
  fun w =>
    match m w with
    | (inr a, w') => f a w'
    | (inl e, w') => (inl e, w')
    end.

Notation "'let!' x ':=' m 'in' k" := (bind m (fun x => k))
  (at level 10, x name, m at level 100, k at level 200).

(** One round trip. *)
Definition execute_command (c : command) : M reply :=
  fun w =>
    match link w with
    | Some e => (inl e, w)
    | None =>
        let w' d := Redis d (clock w) (executed w ++ [c]) None in
        match run_command (clock w) c (db w) with
        | (inr r, d) => (inr r, w' d)
        | (inl msg, d) => (inl (ResponseError msg), w' d)
        end
    end.

(** What the client library hands back for a reply. *)
Inductive py_value :=
  | PyNone
  | PyBool (b : bool)
  | PyInt (n : Z)
  | PyBytes (s : string).

(** SET answers True for OK and None otherwise; the other replies are handed
    back as they are. *)
Definition parse_response (c : command) (r : reply) : py_value :=
  match c, r with
  | SET _ _ _ _, Status s => if bool_decide (s = "OK"%string) then PyBool true else PyNone
  | SET _ _ _ _, _ => PyNone
  | _, Status s => PyBytes s
  | _, Integer n => PyInt n
  | _, Bulk s => PyBytes s
  | _, Nil => PyNone
  end.

(** [bytes.decode()]: well-formed UTF-8 only (no overlong form, no
    surrogate, nothing past U+10FFFF). *)
Definition byte_in (lo hi : N) (c : ascii) : bool :=
  (lo <=? N_of_ascii c)%N && (N_of_ascii c <=? hi)%N.

Fixpoint valid_utf8 (s : string) : bool :=
  match s with
  | EmptyString => true
  | String a s1 =>
      if byte_in 0 127 a then valid_utf8 s1
      else if byte_in 194 223 a then
        match s1 with
        | String b s2 => byte_in 128 191 b && valid_utf8 s2
        | _ => false
        end
      else if byte_in 224 239 a then
        match s1 with
        | String b (String c s3) =>
            (if byte_in 224 224 a then byte_in 160 191 b
             else if byte_in 237 237 a then byte_in 128 159 b
             else byte_in 128 191 b)
            && byte_in 128 191 c && valid_utf8 s3
        | _ => false
        end
      else if byte_in 240 244 a then
        match s1 with
        | String b (String c (String d s4)) =>
            (if byte_in 240 240 a then byte_in 144 191 b
             else if byte_in 244 244 a then byte_in 128 143 b
             else byte_in 128 191 b)
            && byte_in 128 191 c && byte_in 128 191 d && valid_utf8 s4
        | _ => false
        end
      else false
  end.

(** Python's [bool(x)] and [x == 1]. *)
Definition py_bool (v : py_value) : bool :=
  match v with
  | PyNone => false
  | PyBool b => b
  | PyInt n => negb (n =? 0)
  | PyBytes s => negb (bool_decide (s = ""%string))
  end.

Definition py_eq_1 (v : py_value) : bool :=
  match v with
  | PyInt n => n =? 1
  | PyBool b => b
  | _ => false
  end.

Definition redis_set (name val : string) (nx : bool) (ex : option Z) : M py_value :=
  let c := SET name val nx ex in
  let! r := execute_command c in ret (parse_response c r).

Definition redis_get (name : string) : M py_value :=
  let c := GET name in
  let! r := execute_command c in ret (parse_response c r).

Definition redis_eval (script : lua_stmt) (keys args : list string) : M py_value :=
  let c := EVAL script keys args in
  let! r := execute_command c in ret (parse_response c r).

(** ** [FileLockManager] *)

Record FileLockManager := { lock_ttl : Z }.

(** [__init__].  [self.redis] is the connection to the one shared server,
    the world the methods run in; [self.lock_ttl] is 60 seconds. *)
Definition init : FileLockManager := {| lock_ttl := 60 |}.

Definition lock_key (file_path : string) : string := "file_lock:" +:+ file_path.

(** Try to acquire lock for file. *)
Definition acquire_lock (self : FileLockManager) (file_path user_id : string) : M bool :=
  let! r := redis_set (lock_key file_path) user_id true (Some (lock_ttl self)) in
  ret (py_bool r).

(** if redis.call("get", KEYS[1]) == ARGV[1] then
      return redis.call("del", KEYS[1])
    else return 0 end *)
Definition release_script : lua_stmt :=
  If (EqOp (redis_call "get" [KEYS 1]) (ARGV 1))
     (Return (redis_call "del" [KEYS 1]))
     (Return (Num 0)).

(** Release lock if owned by user. *)
Definition release_lock (self : FileLockManager) (file_path user_id : string) : M bool :=
  let! result := redis_eval release_script [lock_key file_path] [user_id] in
  ret (py_eq_1 result).

(** if redis.call("get", KEYS[1]) == ARGV[1] then
      return redis.call("expire", KEYS[1], ARGV[2])
    else return 0 end *)
Definition extend_script : lua_stmt :=
  If (EqOp (redis_call "get" [KEYS 1]) (ARGV 1))
     (Return (redis_call "expire" [KEYS 1; ARGV 2]))
     (Return (Num 0)).

(** Extend lock TTL (heartbeat mechanism).  A caller that leaves [ttl] out
    passes 60. *)
Definition extend_lock (self : FileLockManager) (file_path user_id : string) (ttl : Z)
    : M bool :=
  let! result := redis_eval extend_script [lock_key file_path] [user_id; py_str ttl] in
  ret (py_eq_1 result).

(** Check who owns the lock. *)
Definition get_lock_owner (self : FileLockManager) (file_path : string)
    : M (option string) :=
  let! owner := redis_get (lock_key file_path) in
  if py_bool owner then
    match owner with
    | PyBytes s => if valid_utf8 s then ret (Some s) else raise UnicodeDecodeError
    | _ => raise AttributeError
    end
  else ret None.

(** ** Reading the world *)

(** The live entry of a file's lock, and its owner. *)
Definition held (w : redis) (file_path : string) : option entry :=
  lookup_key (clock w) (lock_key file_path) (db w).

Definition owner_of (w : redis) (file_path : string) : option string :=
  value <$> held w file_path.

(** Why the server refuses a timeout of [ttl] seconds at clock [now], if it
    does: the argument is not a signed 64-bit integer, or the expiry does
    not fit in 64 bits of milliseconds. *)
Definition expire_error (now ttl : Z) : option string :=
  if (ttl <? LLONG_MIN) || (LLONG_MAX <? ttl)
  then Some "ERR value is not an integer or out of range"%string
  else if (LLONG_MAX ÷ 1000 <? ttl) || (ttl <? LLONG_MIN ÷ 1000)
          || (LLONG_MAX - now <? 1000 * ttl)
  then Some "ERR invalid expire time in 'expire' command"%string
  else None.

(** The timeouts the server takes at clock [now]: in seconds and in
    milliseconds within 64 bits, and so is the expiry. *)
Definition expirable (now ttl : Z) : Prop :=
  LLONG_MIN ÷ 1000 <= ttl <= LLONG_MAX ÷ 1000 /\ 1000 * ttl <= LLONG_MAX - now.

(** The world after the server has executed [c] and is left with [d]. *)
Definition after (w : redis) (c : command) (d : gmap string entry) : redis :=
  Redis d (clock w) (executed w ++ [c]) None.

(** The clock is as it was, and so is the dictionary under every key but
    [k]. *)
Definition untouched_but (k : string) (w w' : redis) : Prop :=
  clock w' = clock w /\ forall k', k' <> k -> db w' !! k' = db w !! k'.

(** ** Histories

    Many request handlers, each with a manager of its own built by [init],
    share one server; every method is one atomic command, so a concurrent
    execution is a sequence of calls in the order the server serves them,
    interleaved with the passing of time and with changes of the connection. *)

Inductive event :=
  | Acquire (file_path user_id : string)
  | Release (file_path user_id : string)
  | Renew (file_path user_id : string) (ttl : Z)
  | GetOwner (file_path : string)
  | Tick (ms : N)
  | Link (l : option exception).

Inductive answer :=
  | ABool (b : bool)
  | AOwner (o : option string)
  | ADone.

Definition observe {A} (f : A -> answer) (r : (exception + A) * redis)
    : (exception + answer) * redis :=
  match r with
  | (inr a, w) => (inr (f a), w)
  | (inl e, w) => (inl e, w)
  end.

Definition step (ev : event) (w : redis) : (exception + answer) * redis :=
  match ev with
  | Acquire f u => observe ABool (acquire_lock init f u w)
  | Release f u => observe ABool (release_lock init f u w)
  | Renew f u ttl => observe ABool (extend_lock init f u ttl w)
  | GetOwner f => observe AOwner (get_lock_owner init f w)
  | Tick ms => (inr ADone, Redis (db w) (clock w + Z.of_N ms) (executed w) (link w))
  | Link l => (inr ADone, Redis (db w) (clock w) (executed w) l)
  end.

Fixpoint run (evs : list event) (w : redis)
    : list (event * (exception + answer)) * redis :=
  match evs with
  | [] => ([], w)
  | ev :: evs' =>
      let '(r, w1) := step ev w in
      let '(h, w2) := run evs' w1 in
      ((ev, r) :: h, w2)
  end.

(** A server just started, and the scenario's document. *)
Definition fresh : redis := Redis ∅ 0 [] None.

Definition doc : string := "doc/1.md".

(** The leases handed out for [file_path], read off a history alone: a
    successful acquire grants a lease until [lock_ttl] from now, a successful
    renew moves its end (a timeout not in the future ends it), a successful
    release ends it.  The history is sound when no acquire succeeds while a
    lease granted earlier is still running. *)
Definition running (now : Z) (lease : option Z) : bool :=
  match lease with
  | Some t => now <=? t
  | None => false
  end.

Fixpoint no_double_grant (file_path : string) (now : Z) (lease : option Z)
    (h : list (event * (exception + answer))) : bool :=
  match h with
  | [] => true
  | (Tick ms, _) :: h' => no_double_grant file_path (now + Z.of_N ms) lease h'
  | (Acquire f _, inr (ABool true)) :: h' =>
      if bool_decide (f = file_path)
      then negb (running now lease)
           && no_double_grant file_path now (Some (now + 1000 * lock_ttl init)) h'
      else no_double_grant file_path now lease h'
  | (Release f _, inr (ABool true)) :: h' =>
      no_double_grant file_path now
        (if bool_decide (f = file_path) then None else lease) h'
  | (Renew f _ ttl, inr (ABool true)) :: h' =>
      no_double_grant file_path now
        (if bool_decide (f = file_path)
         then (if ttl <=? 0 then None else Some (now + 1000 * ttl))
         else lease) h'
  | _ :: h' => no_double_grant file_path now lease h'
  end.

(** While a lease runs, the server holds the lock with the same expiry. *)
Definition lease_backed (file_path : string) (w : redis) (lease : option Z) : Prop :=
  forall t, lease = Some t -> clock w <= t ->
    exists u, db w !! lock_key file_path = Some (Entry u (Some t)).

(** ** Time, strangers and grants *)

(** The world [ms] milliseconds later. *)
Definition elapse (ms : N) (w : redis) : redis := (step (Tick ms) w).2.

(** The calls by which [user_id] gives up or moves a lock on [file_path]:
    a release or a renewal in its own name. *)
Definition by_owner (file_path user_id : string) (ev : event) : bool :=
  match ev with
  | Release f u | Renew f u _ => bool_decide (f = file_path) && bool_decide (u = user_id)
  | _ => false
  end.

(** The user of the last acquire on [file_path] that was granted, read off
    a history; [acc] is the one before the history began. *)
Fixpoint last_grant (file_path : string) (acc : option string)
    (h : list (event * (exception + answer))) : option string :=
  match h with
  | [] => acc
  | (Acquire f u, inr (ABool true)) :: h' =>
      last_grant file_path (if bool_decide (f = file_path) then Some u else acc) h'
  | _ :: h' => last_grant file_path acc h'
  end.

(** Every key of the dictionary is the key of some file's lock, and every
    entry carries an expiry. *)
Definition well_kept (d : gmap string entry) : Prop :=
  forall k e, d !! k = Some e -> (exists f, k = lock_key f) /\ is_Some (expire_at e).

(** Whoever holds the live entry of [f] is the user granted last. *)
Definition owner_granted (f : string) (w : redis) (acc : option string) : Prop :=
  forall e, db w !! lock_key f = Some e -> live (clock w) e = true -> acc = Some (value e).

(** ** Building the manager: [dependencies.py]

    The module keeps two globals, filled on first use.  Objects are told
    apart by the order in which they were allocated; whether
    [redis.from_url] accepts a URL is the client library's business and is
    left open ([from_url_accepts]); it opens no connection. *)

Module Dependencies.

Record client := Client { client_id : nat; client_url : string }.

(** A [FileLockManager] object: which one, its [redis], its other fields. *)
Record manager := Manager {
  manager_id : nat;
  manager_redis : client;
  manager_fields : FileLockManager
}.

Record globals := Globals {
  environ : gmap string string;
  _redis_client : option client;
  _file_lock_manager : option manager;
  allocated : nat
}.

Inductive error := ValueError (url : string).

(** The module freshly imported. *)
Definition start (env : gmap string string) : globals := Globals env None None 0.

Definition getenv (g : globals) (name fallback : string) : string :=
  default fallback (environ g !! name).

Section FromUrl.
Variable from_url_accepts : string -> bool.

Definition get_redis_client (g : globals) : (error + client) * globals :=
  match _redis_client g with
  | Some c => (inr c, g)
  | None =>
      let redis_url := getenv g "REDIS_URL" "redis://localhost:6379/0" in
      if from_url_accepts redis_url then
        let c := Client (allocated g) redis_url in
        (inr c, Globals (environ g) (Some c) (_file_lock_manager g) (S (allocated g)))
      else (inl (ValueError redis_url), g)
  end.

Definition get_file_lock_manager (g : globals) : (error + manager) * globals :=
  match _file_lock_manager g with
  | Some m => (inr m, g)
  | None =>
      match get_redis_client g with
      | (inr c, g1) =>
          let m := Manager (allocated g1) c init in
          (inr m, Globals (environ g1) (_redis_client g1) (Some m) (S (allocated g1)))
      | (inl e, g1) => (inl e, g1)
      end
  end.

(** What the rest of the process may do to the module, in any order. *)
Inductive call :=
  | GetClient
  | GetManager
  | Putenv (name value : string)
  | Unsetenv (name : string).

Inductive out :=
  | OClient (r : error + client)
  | OManager (r : error + manager)
  | ODone.

Definition serve1 (c : call) (g : globals) : out * globals :=
  match c with
  | GetClient => let '(r, g1) := get_redis_client g in (OClient r, g1)
  | GetManager => let '(r, g1) := get_file_lock_manager g in (OManager r, g1)
  | Putenv name value =>
      (ODone, Globals (<[name := value]> (environ g)) (_redis_client g)
                (_file_lock_manager g) (allocated g))
  | Unsetenv name =>
      (ODone, Globals (delete name (environ g)) (_redis_client g)
                (_file_lock_manager g) (allocated g))
  end.

Fixpoint serve (cs : list call) (g : globals) : list out * globals :=
  match cs with
  | [] => ([], g)
  | c :: cs' =>
      let '(o, g1) := serve1 c g in
      let '(os, g2) := serve cs' g1 in
      (o :: os, g2)
  end.

(** A manager in the cache was built on the client in the cache. *)
Definition coherent (g : globals) : Prop :=
  forall m, _file_lock_manager g = Some m -> _redis_client g = Some (manager_redis m).

(** The objects handed out are the ones in the cache. *)
Definition cached (g : globals) (o : out) : Prop :=
  match o with
  | OClient (inr c) => _redis_client g = Some c
  | OManager (inr m) =>
      _file_lock_manager g = Some m /\ _redis_client g = Some (manager_redis m)
  | _ => True
  end.

End FromUrl.
End Dependencies.

(** ** Who may call: [middleware/permissions.py] and [middleware/auth.py]

    Python values are JSON-like: the claims of a token, the user dictionary
    built from them and the keyword arguments of an endpoint.  Numbers are
    integers; a dictionary is a list of pairs read from the front. *)

Module Middleware.

#[local] Unset Elimination Schemes.
Inductive json :=
  | JNull
  | JBool (b : bool)
  | JNum (n : Z)
  | JStr (s : string)
  | JList (l : list json)
  | JDict (d : list (string * json)).
#[local] Set Elimination Schemes.

Inductive error :=
  | HTTPException (status_code : Z) (detail : string)
  | AttributeError (msg : string)
  | TypeError (msg : string)
  | OtherError (msg : string).

(** [if v:] *)
Definition truthy (v : json) : bool :=
  match v with
  | JNull => false
  | JBool b => b
  | JNum n => negb (n =? 0)
  | JStr s => negb (bool_decide (s = ""%string))
  | JList l => match l with [] => false | _ => true end
  | JDict d => match d with [] => false | _ => true end
  end.

(** [d.get(k)], none when the key is missing. *)
Fixpoint dict_get {V} (d : list (string * V)) (k : string) : option V :=
  match d with
  | [] => None
  | (k', v) :: d' => if bool_decide (k' = k) then Some v else dict_get d' k
  end.

(** *** permissions.py *)

Definition PERMISSIONS : list (string * list string) :=
  [("admin", ["read"; "write"; "delete"; "manage_users"]);
   ("editor", ["read"; "write"]);
   ("viewer", ["read"])]%string.

(** [PERMISSIONS.get(user_role, [])] for a role that can be a key. *)
Definition PERMISSIONS_get (user_role : json) : list string :=
  match user_role with
  | JStr r => default [] (dict_get PERMISSIONS r)
  | _ => []
  end.

(** [str(v)] of a value that can be a key; a list or a dictionary cannot. *)
Definition hashable_str (v : json) : option string :=
  match v with
  | JNull => Some "None"%string
  | JBool b => Some (if b then "True" else "False")%string
  | JNum n => Some (py_str n)
  | JStr s => Some s
  | JList _ | JDict _ => None
  end.

(** The wrapper that [require_permission(permission)] puts around [func],
    called with keyword arguments [kwargs]. *)
Definition require_permission {A} (permission : string)
    (func : gmap string json -> error + A) (kwargs : gmap string json) : error + A :=
  let current_user := default JNull (kwargs !! "current_user"%string) in
  if truthy current_user then
    match current_user with
    | JDict d =>
        let user_role := default (JStr "viewer") (dict_get d "role") in
        match hashable_str user_role with
        | None => inl (TypeError "unhashable type")
        | Some shown =>
            if bool_decide (permission ∈ PERMISSIONS_get user_role) then func kwargs
            else inl (HTTPException 403
                        ("Insufficient permissions. Role '" +:+ shown +:+ "' cannot '"
                         +:+ permission +:+ "'."))
        end
    | _ => inl (AttributeError "object has no attribute 'get'")
    end
  else
    inl (HTTPException 500
           "Server Error: Endpoint protected by require_permission must inject 'current_user' dependency.").

(** *** auth.py *)

(** What a path that exists leads to: a file that reads as text, or
    something on which [open] or [read] raises (a directory, a file the
    process may not read, bytes that are not text). *)
Inductive node :=
  | File (content : string)
  | Unreadable (err : string).

(** The key to verify tokens with: the content of the file named by the
    environment if that path exists, else the key given in the environment,
    else none.  [files] are the paths that exist; reading may raise
    ([inl]). *)
Definition get_public_key (environ : gmap string string) (files : gmap string node)
    : string + option string :=
  let from_environ :=
    match environ !! "CASDOOR_PUBLIC_KEY"%string with
    | Some key_content =>
        if bool_decide (key_content = ""%string) then None else Some key_content
    | None => None
    end in
  match environ !! "CASDOOR_PUBLIC_KEY_PATH"%string with
  | Some key_path =>
      if bool_decide (key_path = ""%string) then inr from_environ
      else match files !! key_path with
           | Some (File content) => inr (Some content)
           | Some (Unreadable err) => inl err
           | None => inr from_environ
           end
  | None => inr from_environ
  end.

(** What the token library does with a token: hand back its claims, raise
    [JWTError], or raise something else. *)
Inductive jose_result :=
  | Claims (payload : list (string * json))
  | JWTError (msg : string)
  | Raises (msg : string).

Section Jose.
Variable jwt_decode : string -> string -> list string -> jose_result.
Variable jwt_get_unverified_claims : string -> jose_result.
Variable lower : string -> string.

(** The loop over [roles]: the names, lowered, or the exception of the first
    name that is not a string. *)
Fixpoint role_names_of (roles : list json) : error + list string :=
  match roles with
  | [] => inr []
  | r :: roles' =>
      match r with
      | JDict d =>
          match default (JStr "") (dict_get d "name") with
          | JStr name =>
              match role_names_of roles' with
              | inr names => inr (lower name :: names)
              | inl e => inl e
              end
          | _ => inl (AttributeError "object has no attribute 'lower'")
          end
      | JStr name =>
          match role_names_of roles' with
          | inr names => inr (lower name :: names)
          | inl e => inl e
          end
      | _ => role_names_of roles'
      end
  end.

Definition role_of (payload : list (string * json)) : error + string :=
  let is_admin := default (JBool false) (dict_get payload "isAdmin") in
  if truthy is_admin then inr "admin"%string
  else
    let roles := default (JList []) (dict_get payload "roles") in
    match (match roles with JList l => role_names_of l | _ => inr [] end) with
    | inl e => inl e
    | inr role_names =>
        if bool_decide ("admin"%string ∈ role_names) then inr "admin"%string
        else if bool_decide ("editor"%string ∈ role_names) then inr "editor"%string
        else if match role_names with [] => true | _ => false end
                && match dict_get payload "owner" with
                   | Some (JStr o) => bool_decide (o = "built-in"%string)
                   | _ => false
                   end
        then inr "admin"%string
        else inr "viewer"%string
    end.

(** The claims of the token: unverified when there is no key ([if not
    public_key]), verified against the key otherwise; nothing is decoded
    when reading the key raised. *)
Definition claims_of_token (environ : gmap string string) (files : gmap string node)
    (token : string) : jose_result :=
  match get_public_key environ files with
  | inl err => Raises err
  | inr (Some public_key) =>
      if bool_decide (public_key = ""%string) then jwt_get_unverified_claims token
      else jwt_decode token public_key ["RS256"%string]
  | inr None => jwt_get_unverified_claims token
  end.

Definition get_current_user (environ : gmap string string) (files : gmap string node)
    (token : string) : error + json :=
  match claims_of_token environ files token with
  | JWTError msg => inl (HTTPException 401 ("Invalid authentication: " +:+ msg))
  | Raises msg => inl (OtherError msg)
  | Claims payload =>
      let sub := default JNull (dict_get payload "sub") in
      let user_id := if truthy sub then sub else default JNull (dict_get payload "id") in
      let username := default JNull (dict_get payload "name") in
      match role_of payload with
      | inl e => inl e
      | inr role =>
          inr (JDict [("id"%string, user_id); ("username"%string, username);
                      ("role"%string, JStr role)])
      end
  end.

End Jose.
End Middleware.

(** * Properties *)

Arguments lock_key : simpl never.
Arguments py_str : simpl never.

Lemma string2ll_py_str n :
  string2ll (py_str n) = if (LLONG_MIN <=? n) && (n <=? LLONG_MAX) then Some n else None.
Proof.
  unfold string2ll, py_str. rewrite NilEmpty.isi. cbv zeta. rewrite DecimalZ.of_to.
  by rewrite bool_decide_eq_true_2.
Qed.

Lemma llong_quot :
  LLONG_MAX ÷ 1000 = 9223372036854775 /\ LLONG_MIN ÷ 1000 = -9223372036854775.
Proof. split; reflexivity. Qed.

Lemma expire_error_expirable now ttl : expirable now ttl -> expire_error now ttl = None.
Proof.
  unfold expirable, expire_error. destruct llong_quot as [-> ->].
  unfold LLONG_MAX, LLONG_MIN. intros [[H1 H2] H3].
  repeat match goal with
         | |- context [?a <? ?b] => destruct (Z.ltb_spec a b); try lia
         end.
  reflexivity.
Qed.


Lemma lock_key_inj f g : lock_key f = lock_key g -> f = g.
Proof. unfold lock_key. intros H. by simplify_eq/=. Qed.

(** *** The four methods on a healthy connection *)

Lemma acquire_lock_eq self f u w :
  link w = None -> 0 < lock_ttl self ->
  acquire_lock self f u w =
    let c := SET (lock_key f) u true (Some (lock_ttl self)) in
    match held w f with
    | None =>
        (inr true,
         after w c (<[lock_key f := Entry u (Some (clock w + 1000 * lock_ttl self))]> (db w)))
    | Some _ => (inr false, after w c (db w))
    end.
Proof.
  intros Hl Ht. unfold acquire_lock, redis_set, bind, execute_command, held.
  rewrite Hl. cbn. unfold cmd_set.
  destruct (Z.leb_spec (lock_ttl self) 0); [lia|].
  destruct (lookup_key _ _ _); reflexivity.
Qed.

(** The two scripts, run by the server. *)

Lemma call_get now k d : call now "get" [LString k] d = cmd_get now k d.
Proof. reflexivity. Qed.

Lemma call_del now k d : call now "del" [LString k] d = cmd_del now k d.
Proof. reflexivity. Qed.

Lemma call_expire now k n d :
  call now "expire" [LString k; LString (py_str n)] d =
    if (LLONG_MIN <=? n) && (n <=? LLONG_MAX) then cmd_expire now k n d
    else (inl "ERR value is not an integer or out of range"%string, d).
Proof.
  change (call now "expire" [LString k; LString (py_str n)] d)
    with (match string2ll (py_str n) with
          | Some secs => cmd_expire now k secs d
          | None => (inl "ERR value is not an integer or out of range"%string, d)
          end).
  rewrite string2ll_py_str. by destruct (_ && _).
Qed.

Arguments call : simpl never.

Lemma release_script_eval now k u d :
  cmd_eval now release_script [k] [u] d =
    match lookup_key now k d with
    | Some e =>
        if bool_decide (value e = u) then (inr (Integer 1), delete k d)
        else (inr (Integer 0), d)
    | None => (inr (Integer 0), d)
    end.
Proof.
  unfold cmd_eval, release_script. cbn. rewrite call_get. unfold cmd_get.
  destruct (lookup_key now k d) as [e|] eqn:He; cbn; [|reflexivity].
  case_bool_decide; cbn; [|reflexivity].
  rewrite call_del. unfold cmd_del. by rewrite He.
Qed.

Lemma extend_script_eval now k u ttl d :
  cmd_eval now extend_script [k] [u; py_str ttl] d =
    match lookup_key now k d with
    | Some e =>
        if bool_decide (value e = u)
        then match expire_error now ttl with
             | Some err => (inl err, d)
             | None =>
                 (inr (Integer 1),
                  if ttl <=? 0 then delete k d
                  else <[k := Entry u (Some (now + 1000 * ttl))]> d)
             end
        else (inr (Integer 0), d)
    | None => (inr (Integer 0), d)
    end.
Proof.
  unfold cmd_eval, extend_script. cbn. rewrite call_get. unfold cmd_get.
  destruct (lookup_key now k d) as [e|] eqn:He; cbn; [|reflexivity].
  case_bool_decide as Hv; cbn; [|reflexivity].
  rewrite call_expire. unfold expire_error.
  replace ((ttl <? LLONG_MIN) || (LLONG_MAX <? ttl))
    with (negb ((LLONG_MIN <=? ttl) && (ttl <=? LLONG_MAX)))
    by (rewrite negb_andb, !Z.leb_antisym, !negb_involutive; reflexivity).
  destruct ((LLONG_MIN <=? ttl) && (ttl <=? LLONG_MAX)); cbn [negb]; [|reflexivity].
  unfold cmd_expire. destruct (_ || _); [reflexivity|]. rewrite He, Hv.
  replace (now + 1000 * ttl <=? now) with (ttl <=? 0)
    by (destruct (Z.leb_spec ttl 0), (Z.leb_spec (now + 1000 * ttl) now); lia).
  by destruct (ttl <=? 0).
Qed.

Lemma release_lock_eq self f u w :
  link w = None ->
  release_lock self f u w =
    let c := EVAL release_script [lock_key f] [u] in
    if bool_decide (owner_of w f = Some u)
    then (inr true, after w c (delete (lock_key f) (db w)))
    else (inr false, after w c (db w)).
Proof.
  intros Hl. unfold release_lock, redis_eval, bind, execute_command, owner_of, held.
  rewrite Hl. unfold run_command. rewrite release_script_eval.
  destruct (lookup_key _ _ _) as [e|]; cbn; [|reflexivity].
  case_bool_decide.
  - rewrite bool_decide_eq_true_2 by congruence. reflexivity.
  - rewrite bool_decide_eq_false_2 by congruence. reflexivity.
Qed.

Lemma extend_lock_eq self f u ttl w :
  link w = None ->
  extend_lock self f u ttl w =
    let c := EVAL extend_script [lock_key f] [u; py_str ttl] in
    if bool_decide (owner_of w f = Some u)
    then match expire_error (clock w) ttl with
         | Some err => (inl (ResponseError err), after w c (db w))
         | None =>
             (inr true,
              after w c (if ttl <=? 0 then delete (lock_key f) (db w)
                         else <[lock_key f := Entry u (Some (clock w + 1000 * ttl))]> (db w)))
         end
    else (inr false, after w c (db w)).
Proof.
  intros Hl. unfold extend_lock, redis_eval, bind, execute_command, owner_of, held.
  rewrite Hl. unfold run_command. rewrite extend_script_eval.
  destruct (lookup_key _ _ _) as [e|]; cbn; [|reflexivity].
  case_bool_decide.
  - rewrite bool_decide_eq_true_2 by congruence.
    by destruct (expire_error (clock w) ttl).
  - rewrite bool_decide_eq_false_2 by congruence. reflexivity.
Qed.

(** The dictionary a renewal leaves behind, whatever its answer. *)
Lemma extend_lock_db self f u ttl w :
  link w = None ->
  exists r,
    extend_lock self f u ttl w
    = (r, after w (EVAL extend_script [lock_key f] [u; py_str ttl])
            (match r with
             | inr true =>
                 if ttl <=? 0 then delete (lock_key f) (db w)
                 else <[lock_key f := Entry u (Some (clock w + 1000 * ttl))]> (db w)
             | _ => db w
             end)) /\
    (r = inr true -> owner_of w f = Some u).
Proof.
  intros Hl. rewrite extend_lock_eq by done. cbn zeta.
  case_bool_decide; [destruct (expire_error (clock w) ttl) as [err|]|].
  - by exists (inl (ResponseError err)).
  - by exists (inr true).
  - by exists (inr false).
Qed.

Lemma get_lock_owner_eq self f w :
  link w = None ->
  get_lock_owner self f w =
    (match owner_of w f with
     | Some s =>
         if bool_decide (s = ""%string) then inr None
         else if valid_utf8 s then inr (Some s) else inl UnicodeDecodeError
     | None => inr None
     end,
     after w (GET (lock_key f)) (db w)).
Proof.
  intros Hl. unfold get_lock_owner, redis_get, bind, execute_command, owner_of, held.
  rewrite Hl. cbn. unfold cmd_get.
  destruct (lookup_key _ _ _) as [e|]; cbn; [|reflexivity].
  case_bool_decide; [done|]. by destruct (valid_utf8 (value e)).
Qed.

(** The dictionary a read leaves behind, whatever its answer. *)
Lemma get_lock_owner_db self f w :
  link w = None ->
  exists r, get_lock_owner self f w = (r, after w (GET (lock_key f)) (db w)).
Proof. intros Hl. rewrite get_lock_owner_eq by done. by eexists. Qed.

(** *** The four methods on a broken connection *)

Lemma acquire_lock_down self f u w e :
  link w = Some e -> acquire_lock self f u w = (inl e, w).
Proof.
  intros Hl. unfold acquire_lock, redis_set, bind, execute_command. by rewrite Hl.
Qed.

Lemma release_lock_down self f u w e :
  link w = Some e -> release_lock self f u w = (inl e, w).
Proof.
  intros Hl. unfold release_lock, redis_eval, bind, execute_command. by rewrite Hl.
Qed.

Lemma extend_lock_down self f u ttl w e :
  link w = Some e -> extend_lock self f u ttl w = (inl e, w).
Proof.
  intros Hl. unfold extend_lock, redis_eval, bind, execute_command. by rewrite Hl.
Qed.

Lemma get_lock_owner_down self f w e :
  link w = Some e -> get_lock_owner self f w = (inl e, w).
Proof.
  intros Hl. unfold get_lock_owner, redis_get, bind, execute_command. by rewrite Hl.
Qed.

(** *** Leases along a history *)

Lemma held_after w c d f :
  held (after w c d) f = lookup_key (clock w) (lock_key f) d.
Proof. reflexivity. Qed.

Lemma held_insert w f u t :
  clock w <= t ->
  lookup_key (clock w) (lock_key f) (<[lock_key f := Entry u (Some t)]> (db w))
  = Some (Entry u (Some t)).
Proof.
  intros Ht. unfold lookup_key. rewrite lookup_insert_eq. unfold live. cbn.
  destruct (Z.leb_spec (clock w) t); [done | lia].
Qed.

Lemma lease_backed_frame f w w' lease :
  clock w <= clock w' ->
  db w' !! lock_key f = db w !! lock_key f ->
  lease_backed f w lease -> lease_backed f w' lease.
Proof.
  intros Hc Hd Hb t Hl Ht. rewrite Hd. apply Hb; [done | lia].
Qed.

Lemma lease_backed_held f w lease :
  lease_backed f w lease -> held w f = None -> running (clock w) lease = false.
Proof.
  intros Hb Hh. destruct lease as [t|]; [|done]. cbn.
  destruct (Z.leb_spec (clock w) t) as [Ht|]; [|done].
  destruct (Hb t eq_refl Ht) as [u Hu].
  unfold held, lookup_key in Hh. rewrite Hu in Hh. unfold live in Hh. cbn in Hh.
  destruct (Z.leb_spec (clock w) t); [done | lia].
Qed.

Lemma lock_key_ne f g : f <> g -> lock_key f <> lock_key g.
Proof. intros Hne Heq. by apply Hne, lock_key_inj. Qed.

Lemma run_no_double_grant f evs : forall w lease,
  lease_backed f w lease ->
  no_double_grant f (clock w) lease (run evs w).1 = true.
Proof.
  induction evs as [|ev evs IH]; intros w lease Hb; [done|].
  cbn [run]. destruct (step ev w) as [r w1] eqn:Hs.
  specialize (IH w1). destruct (run evs w1) as [h w2]. cbn [fst] in *.
  destruct ev as [g u|g u|g u ttl|g|ms|l]; cbn [step] in Hs.
  - (* acquire *)
    destruct (link w) as [e|] eqn:Hl.
    { rewrite (acquire_lock_down _ _ _ _ e) in Hs by done. simplify_eq/=. by apply IH. }
    rewrite acquire_lock_eq in Hs by done. cbn zeta in Hs.
    destruct (held w g) as [e|] eqn:Hh; simplify_eq/=.
    { apply IH. by eapply lease_backed_frame. }
    case_bool_decide as Hg; [subst g|].
    + rewrite (lease_backed_held _ _ _ Hb Hh). cbn. apply IH.
      intros t [= <-] _. cbn. rewrite lookup_insert_eq. eauto.
    + apply IH. eapply lease_backed_frame; [| |done]; cbn; [lia|].
      by rewrite lookup_insert_ne by by apply lock_key_ne.
  - (* release *)
    destruct (link w) as [e|] eqn:Hl.
    { rewrite (release_lock_down _ _ _ _ e) in Hs by done. simplify_eq/=. by apply IH. }
    rewrite release_lock_eq in Hs by done. cbn zeta in Hs.
    case_bool_decide as Ho; simplify_eq/=.
    + apply IH. case_bool_decide as Hg; [by intros t ?|].
      eapply lease_backed_frame; [| |done]; cbn; [lia|].
      by rewrite lookup_delete_ne by by apply lock_key_ne.
    + apply IH. by eapply lease_backed_frame.
  - (* renew *)
    destruct (link w) as [e|] eqn:Hl.
    { rewrite (extend_lock_down _ _ _ _ _ e) in Hs by done. simplify_eq/=. by apply IH. }
    rewrite extend_lock_eq in Hs by done. cbn zeta in Hs.
    case_bool_decide as Ho; [destruct (expire_error (clock w) ttl) as [err|]|];
      simplify_eq/=.
    + apply IH. by eapply lease_backed_frame.
    + apply IH. case_bool_decide as Hg; [subst g|].
      * destruct (ttl <=? 0); [by intros t ?|].
        intros t [= <-] _. cbn. rewrite lookup_insert_eq. eauto.
      * eapply lease_backed_frame; [| |done]; cbn; [lia|].
        destruct (ttl <=? 0).
        -- by rewrite lookup_delete_ne by by apply lock_key_ne.
        -- by rewrite lookup_insert_ne by by apply lock_key_ne.
    + apply IH. by eapply lease_backed_frame.
  - (* get_owner *)
    destruct (link w) as [e|] eqn:Hl.
    { rewrite (get_lock_owner_down _ _ _ e) in Hs by done. simplify_eq/=. by apply IH. }
    destruct (get_lock_owner_db init g w Hl) as [r0 Hg]. rewrite Hg in Hs.
    destruct r0; simplify_eq/=; apply IH; by eapply lease_backed_frame.
  - (* time passes *)
    simplify_eq/=. apply IH. eapply lease_backed_frame; [| |done]; cbn; [lia|done].
  - (* the connection changes *)
    simplify_eq/=. apply IH. by eapply lease_backed_frame.
Qed.

Lemma run_acquire_held f us : forall w,
  link w = None -> is_Some (held w f) ->
  (run (Acquire f <$> us) w).1.*2 = replicate (length us) (inr (ABool false)).
Proof.
  induction us as [|u us IH]; intros w Hl [e He]; [done|].
  cbn [fmap list_fmap run step]. rewrite acquire_lock_eq by done. cbn zeta.
  rewrite He. cbn [observe].
  specialize (IH (after w (SET (lock_key f) u true (Some (lock_ttl init))) (db w))).
  destruct (run _ _) as [h w2] eqn:Hr. cbn in *. f_equal. apply IH; [done|].
  rewrite held_after. by exists e.
Qed.

(** A history in which the document is contended: A acquires, B is refused,
    the owner is read, A renews, B's renewal is refused, A releases, B
    acquires. *)
Example contended_document :
  (run [Acquire doc "A"; Acquire doc "B"; GetOwner doc; Renew doc "A" 60;
        Renew doc "B" 60; Release doc "A"; Acquire doc "B"] fresh).1.*2
  = [inr (ABool true); inr (ABool false); inr (AOwner (Some "A"%string));
     inr (ABool true); inr (ABool false); inr (ABool true); inr (ABool true)].
Proof. vm_compute. reflexivity. Qed.

(** Two grants with no release and no time between them are not a sound
    history. *)
Example double_grant_detected :
  no_double_grant doc 0 None
    [(Acquire doc "A", inr (ABool true)); (Acquire doc "B", inr (ABool true))] = false.
Proof. reflexivity. Qed.

(** C1.  From a world in which the resource has no live entry: the store
    names at most one owner for it in every world a history leads to; of
    any number of acquires on it served in a row, the first is granted and
    every other is refused; and in no history of acquires, renews, releases
    and reads by any callers on any resources, with time passing and the
    connection failing and recovering in between, is an acquire on it
    granted while a lease granted before is still running. *)
Theorem at_most_one_owner f w (Hfree : held w f = None) :
  (forall evs u1 u2,
     owner_of (run evs w).2 f = Some u1 -> owner_of (run evs w).2 f = Some u2 ->
     u1 = u2) /\
  (link w = None ->
   forall u us,
     (run (Acquire f <$> u :: us) w).1.*2
     = inr (ABool true) :: replicate (length us) (inr (ABool false))) /\
  (forall evs, no_double_grant f (clock w) None (run evs w).1 = true).
Proof.
  split; [|split].
  - intros evs u1 u2 H1 H2. congruence.
  - intros Hl u us. cbn [fmap list_fmap run step].
    rewrite acquire_lock_eq by done. cbn zeta. rewrite Hfree. cbn [observe].
    pose proof (run_acquire_held f us
      (after w (SET (lock_key f) u true (Some (lock_ttl init)))
         (<[lock_key f := Entry u (Some (clock w + 1000 * lock_ttl init))]> (db w))))
      as Hrest.
    destruct (run _ _) as [h w2]. cbn in *. f_equal. apply Hrest; [done|].
    rewrite held_after, held_insert by lia. by eexists.
  - intros evs. apply run_no_double_grant. by intros t.
Qed.

Lemma at_most_one_owner_witness :
  held fresh doc = None /\
  (run (Acquire doc <$> ["A"; "B"; "C"; "A"]%string) fresh).1.*2
  = [inr (ABool true); inr (ABool false); inr (ABool false); inr (ABool false)] /\
  no_double_grant doc 0 None
    (run [Acquire doc "A"; Tick 59000; Acquire doc "B"; Renew doc "A" 60;
          Tick 59000; Acquire doc "B"; Link (Some TimeoutError); Release doc "A";
          Link None; Tick 2000; Acquire doc "B"; Acquire doc "A"] fresh).1 = true.
Proof.
  split; [reflexivity|].
  destruct (at_most_one_owner doc fresh eq_refl) as (_ & Hrow & Hhist).
  split; [apply (Hrow eq_refl "A"%string ["B"; "C"; "A"]%string) | apply Hhist].
Defined.

(** ** The contract of the four methods *)

(** C2.  On a reachable store, acquire is one atomic SET NX EX: it answers
    true exactly when no live entry existed, in which case it writes the
    owner under the resource's key with the policy's expiry, and otherwise
    writes nothing; in particular a holder that acquires again is answered
    false. *)
Theorem acquire_lock_create_if_absent f u w (Hup : link w = None) :
  exists b w',
    acquire_lock init f u w = (inr b, w') /\
    (b = true <-> held w f = None) /\
    (b = true ->
       db w' = <[lock_key f := Entry u (Some (clock w + 1000 * lock_ttl init))]> (db w) /\
       held w' f = Some (Entry u (Some (clock w + 1000 * lock_ttl init)))) /\
    (b = false -> db w' = db w) /\
    (owner_of w f = Some u -> b = false) /\
    executed w' = executed w ++ [SET (lock_key f) u true (Some (lock_ttl init))].
Proof.
  rewrite acquire_lock_eq by done. cbn zeta. unfold owner_of.
  destruct (held w f) as [e|] eqn:Hh.
  - exists false, (after w (SET (lock_key f) u true (Some (lock_ttl init))) (db w)).
    repeat split; try done.
  - eexists true, _. repeat split; try done.
    rewrite held_after. apply held_insert. cbn. lia.
Qed.

Lemma acquire_lock_create_if_absent_witness :
  link fresh = None /\
  (acquire_lock init doc "A" fresh).1 = inr true /\
  exists w', (acquire_lock init doc "A" fresh).2 = w' /\
             (acquire_lock init doc "A" w').1 = inr false.
Proof.
  split; [reflexivity|].
  destruct (acquire_lock_create_if_absent doc "A" fresh eq_refl)
    as (b & w' & Hr & Hb & Hw & _).
  rewrite Hr. cbn [fst snd].
  assert (b = true) as -> by (apply Hb; reflexivity).
  split; [reflexivity|]. exists w'. split; [reflexivity|].
  destruct (Hw eq_refl) as [_ Hheld].
  assert (link w' = None) as Hl by (by inversion Hr).
  destruct (acquire_lock_create_if_absent doc "A" w' Hl)
    as (b2 & w2 & Hr2 & _ & _ & _ & Ho & _).
  rewrite Hr2. cbn [fst]. f_equal. apply Ho. unfold owner_of. by rewrite Hheld.
Defined.

(** C3.  On a reachable store, release is one script run atomically by the
    server: it answers true and deletes the entry exactly when the live owner
    is the caller; when the entry is absent, expired or another owner's it
    answers false, raises nothing and leaves the store as it was. *)
Theorem release_lock_compare_and_delete f u w (Hup : link w = None) :
  exists b w',
    release_lock init f u w = (inr b, w') /\
    (b = true <-> owner_of w f = Some u) /\
    (b = true -> db w' = delete (lock_key f) (db w)) /\
    (b = false -> db w' = db w) /\
    executed w' = executed w ++ [EVAL release_script [lock_key f] [u]].
Proof.
  rewrite release_lock_eq by done. cbn zeta.
  case_bool_decide; eexists _, _; repeat split; done.
Qed.

(** A holds the document; a release by B is refused and changes nothing. *)
Lemma release_lock_compare_and_delete_witness :
  let w := (acquire_lock init doc "A" fresh).2 in
  link w = None /\
  (release_lock init doc "B" w).1 = inr false /\
  db (release_lock init doc "B" w).2 = db w.
Proof.
  cbv zeta. split; [reflexivity|].
  destruct (release_lock_compare_and_delete doc "B"
              (acquire_lock init doc "A" fresh).2 eq_refl)
    as (b & w' & Hr & Hb & _ & Hsame & _).
  rewrite Hr. cbn [fst snd].
  destruct b; [by destruct Hb as [Hb _]; specialize (Hb eq_refl)|].
  split; [reflexivity | by apply Hsame].
Defined.



(** ** Failures of the store *)

Lemma bind_raise {A B} (m : M A) (k : A -> M B) w e w1 :
  m w = (inl e, w1) -> bind m k w = (inl e, w1).
Proof. intros H. unfold bind. by rewrite H. Qed.

Lemma execute_command_down c w e :
  link w = Some e -> execute_command c w = (inl e, w).
Proof. intros H. unfold execute_command. by rewrite H. Qed.

(** C5.  Whenever the one call a method makes to the store fails (the
    connection is down, the call times out, the server answers with an
    error), the method raises that very failure: it never answers true,
    false, an owner or none in its place. *)
Theorem store_failure_surfaces self f u ttl w e w1 :
  (execute_command (SET (lock_key f) u true (Some (lock_ttl self))) w = (inl e, w1) ->
     acquire_lock self f u w = (inl e, w1)) /\
  (execute_command (EVAL release_script [lock_key f] [u]) w = (inl e, w1) ->
     release_lock self f u w = (inl e, w1)) /\
  (execute_command (EVAL extend_script [lock_key f] [u; py_str ttl]) w = (inl e, w1) ->
     extend_lock self f u ttl w = (inl e, w1)) /\
  (execute_command (GET (lock_key f)) w = (inl e, w1) ->
     get_lock_owner self f w = (inl e, w1)).
Proof.
  repeat split; intros H.
  - unfold acquire_lock, redis_set. by do 2 apply bind_raise.
  - unfold release_lock, redis_eval. by do 2 apply bind_raise.
  - unfold extend_lock, redis_eval. by do 2 apply bind_raise.
  - unfold get_lock_owner, redis_get. by do 2 apply bind_raise.
Qed.

(** A server that cannot be reached, and one that answers a request whose
    expiry is not positive with an error. *)
Lemma store_failure_surfaces_witness :
  let down := Redis ∅ 0 [] (Some ConnectionError) in
  acquire_lock init doc "A" down = (inl ConnectionError, down) /\
  release_lock init doc "A" down = (inl ConnectionError, down) /\
  extend_lock init doc "A" 60 down = (inl ConnectionError, down) /\
  get_lock_owner init doc down = (inl ConnectionError, down) /\
  (acquire_lock {| lock_ttl := 0 |} doc "A" fresh).1
  = inl (ResponseError "ERR invalid expire time in 'set' command").
Proof.
  cbv zeta.
  pose proof (store_failure_surfaces init doc "A" 60
                (Redis ∅ 0 [] (Some ConnectionError)) ConnectionError
                (Redis ∅ 0 [] (Some ConnectionError))) as (Ha & Hr & He & Hg).
  pose proof (store_failure_surfaces {| lock_ttl := 0 |} doc "A" 60 fresh
                (ResponseError "ERR invalid expire time in 'set' command")
                (after fresh (SET (lock_key doc) "A" true (Some 0)) ∅)) as (Hz & _).
  split; [apply Ha; reflexivity|].
  split; [apply Hr; reflexivity|].
  split; [apply He; reflexivity|].
  split; [apply Hg; reflexivity|].
  rewrite Hz; reflexivity.
Defined.

(** ** Arguments outside the contract *)




(** ** Release, then *)

Lemma release_lock_granted self f u w w1 :
  release_lock self f u w = (inr true, w1) ->
  link w = None /\ owner_of w f = Some u /\
  w1 = after w (EVAL release_script [lock_key f] [u]) (delete (lock_key f) (db w)).
Proof.
  intros H. destruct (link w) as [e|] eqn:Hl.
  { by rewrite (release_lock_down _ _ _ _ e) in H. }
  rewrite release_lock_eq in H by done. cbn zeta in H.
  case_bool_decide; by simplify_eq.
Qed.

Lemma held_delete now f d : lookup_key now (lock_key f) (delete (lock_key f) d) = None.
Proof. unfold lookup_key. by rewrite lookup_delete_eq. Qed.

(** C7.  After a release that answered true, get_owner answers none and an
    acquire by any owner, made at once or after that get_owner, is granted;
    a second release in a row answers false, raises nothing and leaves the
    store as it was. *)
Theorem release_then_free f u w w1
    (Hrel : release_lock init f u w = (inr true, w1)) :
  (exists w2,
     get_lock_owner init f w1 = (inr None, w2) /\
     forall u', (acquire_lock init f u' w2).1 = inr true) /\
  (forall u', (acquire_lock init f u' w1).1 = inr true) /\
  (exists w2,
     release_lock init f u w1 = (inr false, w2) /\
     db w2 = db w1 /\ clock w2 = clock w1).
Proof.
  apply release_lock_granted in Hrel as (Hl & Ho & ->).
  set (w1 := after w _ _).
  assert (held w1 f = None) as Hfree by (unfold w1; rewrite held_after; apply held_delete).
  assert (owner_of w1 f = None) as Hnone by (unfold owner_of; by rewrite Hfree).
  split; [|split].
  - rewrite get_lock_owner_eq by done. rewrite Hnone.
    eexists; split; [reflexivity|]. intros u'.
    rewrite acquire_lock_eq by done. cbn zeta.
    rewrite held_after. fold (held w1 f). by rewrite Hfree.
  - intros u'. rewrite acquire_lock_eq by done. cbn zeta. by rewrite Hfree.
  - rewrite release_lock_eq by done. cbn zeta.
    rewrite bool_decide_eq_false_2 by (by rewrite Hnone).
    eexists; split; [reflexivity|]. done.
Qed.

(** The scenario's ending: A holds the document, A releases, B acquires. *)
Lemma release_then_free_witness :
  let w := (acquire_lock init doc "A" fresh).2 in
  let w1 := (release_lock init doc "A" w).2 in
  release_lock init doc "A" w = (inr true, w1) /\
  (acquire_lock init doc "B" w1).1 = inr true /\
  (release_lock init doc "A" w1).1 = inr false.
Proof.
  cbv zeta.
  assert (release_lock init doc "A" (acquire_lock init doc "A" fresh).2
          = (inr true, (release_lock init doc "A" (acquire_lock init doc "A" fresh).2).2))
    as Hrel by (vm_compute; reflexivity).
  split; [exact Hrel|].
  destruct (release_then_free doc "A" _ _ Hrel) as (_ & Hacq & w2 & Hr2 & _).
  split; [apply Hacq|]. by rewrite Hr2.
Defined.

(** ** An empty owner *)

(** C8 at its failing input: the document is locked with the empty string as
    owner; the entry is live (a second acquire is refused, and a release by
    the empty owner finds it), yet get_owner answers none. *)
Theorem get_lock_owner_empty_owner :
  let w := (acquire_lock init doc "" fresh).2 in
  held w doc = Some (Entry "" (Some 60000)) /\
  (get_lock_owner init doc w).1 = inr None /\
  (acquire_lock init doc "B" w).1 = inr false /\
  (release_lock init doc "" w).1 = inr true.
Proof. cbv zeta. repeat split; vm_compute; reflexivity. Qed.




(** ** Other resources *)

Lemma untouched_but_refl k w : untouched_but k w w.
Proof. by split. Qed.

Lemma acquire_lock_untouched f u w :
  untouched_but (lock_key f) w (acquire_lock init f u w).2.
Proof.
  destruct (link w) as [e|] eqn:Hl.
  { rewrite (acquire_lock_down _ _ _ _ e) by done. apply untouched_but_refl. }
  rewrite acquire_lock_eq by done. cbn zeta.
  destruct (held w f); split; cbn; try done.
  intros k' Hk. by rewrite lookup_insert_ne.
Qed.

Lemma release_lock_untouched f u w :
  untouched_but (lock_key f) w (release_lock init f u w).2.
Proof.
  destruct (link w) as [e|] eqn:Hl.
  { rewrite (release_lock_down _ _ _ _ e) by done. apply untouched_but_refl. }
  rewrite release_lock_eq by done. cbn zeta.
  case_bool_decide; split; cbn; try done.
  intros k' Hk. by rewrite lookup_delete_ne.
Qed.

Lemma extend_lock_untouched f u ttl w :
  untouched_but (lock_key f) w (extend_lock init f u ttl w).2.
Proof.
  destruct (link w) as [e|] eqn:Hl.
  { rewrite (extend_lock_down _ _ _ _ _ e) by done. apply untouched_but_refl. }
  rewrite extend_lock_eq by done. cbn zeta.
  case_bool_decide; [destruct (expire_error (clock w) ttl)|]; split; cbn; try done.
  intros k' Hk. destruct (ttl <=? 0).
  - by rewrite lookup_delete_ne.
  - by rewrite lookup_insert_ne.
Qed.

Lemma get_lock_owner_untouched f w :
  untouched_but (lock_key f) w (get_lock_owner init f w).2.
Proof.
  destruct (link w) as [e|] eqn:Hl.
  { rewrite (get_lock_owner_down _ _ _ e) by done. apply untouched_but_refl. }
  rewrite get_lock_owner_eq by done. by split.
Qed.

Lemma untouched_but_held f g w w' :
  f <> g -> untouched_but (lock_key f) w w' ->
  db w' !! lock_key g = db w !! lock_key g /\ held w' g = held w g.
Proof.
  intros Hne [Hc Hd].
  assert (db w' !! lock_key g = db w !! lock_key g) as Hg.
  { apply Hd. intros Heq. by apply Hne, lock_key_inj. }
  split; [done|]. unfold held, lookup_key. by rewrite Hg, Hc.
Qed.

(** C10.  The key of a resource is "file_lock:" followed by the resource,
    distinct resources have distinct keys, and a call of any of the four
    methods on a resource changes the store under no other key: the entry
    of any other resource, and whether it is live, are as before. *)
Theorem other_resources_untouched f g (Hne : f <> g) :
  lock_key f = ("file_lock:" +:+ f)%string /\
  lock_key f <> lock_key g /\
  forall u ttl w w',
    w' = (acquire_lock init f u w).2 \/
    w' = (release_lock init f u w).2 \/
    w' = (extend_lock init f u ttl w).2 \/
    w' = (get_lock_owner init f w).2 ->
    (forall k, k <> lock_key f -> db w' !! k = db w !! k) /\
    db w' !! lock_key g = db w !! lock_key g /\
    held w' g = held w g.
Proof.
  split; [reflexivity|]. split; [by apply lock_key_ne|].
  intros u ttl w w' Hw.
  assert (untouched_but (lock_key f) w w') as Hu.
  { destruct Hw as [-> | [-> | [-> | ->]]].
    - apply acquire_lock_untouched.
    - apply release_lock_untouched.
    - apply extend_lock_untouched.
    - apply get_lock_owner_untouched. }
  split; [apply Hu|]. by apply untouched_but_held with f.
Qed.

(** A holds the first document; B acquires, renews and releases a second
    one; the first stays A's throughout. *)
Lemma other_resources_untouched_witness :
  let w := (acquire_lock init doc "A" fresh).2 in
  let other := "doc/2.md"%string in
  other <> doc /\
  held (acquire_lock init other "B" w).2 doc = held w doc /\
  held (release_lock init other "A" w).2 doc = held w doc.
Proof.
  cbv zeta.
  assert ("doc/2.md"%string <> doc) as Hne by (by intros [=]).
  split; [exact Hne|].
  destruct (other_resources_untouched "doc/2.md" doc Hne) as (_ & _ & Hframe).
  split.
  - apply (Hframe "B" 0 _ _). by left.
  - apply (Hframe "A" 0 _ _). right. by left.
Defined.

(** * Further properties of the lock *)

(** ** The clock and the calls of others *)

Lemma observe_snd {A} (f : A -> answer) r : (observe f r).2 = r.2.
Proof. by destruct r as [[e|a] w]. Qed.

Lemma step_clock ev w : clock w <= clock (step ev w).2.
Proof.
  destruct ev as [g u|g u|g u ttl|g|ms|l]; cbn [step]; rewrite ?observe_snd.
  - destruct (acquire_lock_untouched g u w) as [Hc _]. lia.
  - destruct (release_lock_untouched g u w) as [Hc _]. lia.
  - destruct (extend_lock_untouched g u ttl w) as [Hc _]. lia.
  - destruct (get_lock_owner_untouched g w) as [Hc _]. lia.
  - cbn. lia.
  - cbn. lia.
Qed.

Lemma run_cons ev evs w :
  run (ev :: evs) w
  = (((ev, (step ev w).1) :: (run evs (step ev w).2).1), (run evs (step ev w).2).2).
Proof.
  cbn [run]. destruct (step ev w) as [r w1]. cbn [fst snd].
  destruct (run evs w1) as [h w2]. reflexivity.
Qed.

Lemma run_clock evs : forall w, clock w <= clock (run evs w).2.
Proof.
  induction evs as [|ev evs IH]; intros w; [cbn; lia|].
  rewrite run_cons. cbn [snd]. pose proof (step_clock ev w). specialize (IH (step ev w).2). lia.
Qed.

Lemma observe_fst_inr {A} (f : A -> answer) (r : (exception + A) * redis) a :
  r.1 = inr a -> (observe f r).1 = inr (f a).
Proof. destruct r as [[e|a'] w]; cbn; congruence. Qed.

Lemma held_live w f u t :
  db w !! lock_key f = Some (Entry u (Some t)) -> clock w <= t ->
  held w f = Some (Entry u (Some t)).
Proof.
  intros Hd Ht. unfold held, lookup_key. rewrite Hd. unfold live. cbn.
  destruct (Z.leb_spec (clock w) t); [done | lia].
Qed.

Lemma held_dead w f u t :
  db w !! lock_key f = Some (Entry u (Some t)) -> t < clock w -> held w f = None.
Proof.
  intros Hd Ht. unfold held, lookup_key. rewrite Hd. unfold live. cbn.
  destruct (Z.leb_spec (clock w) t); [lia | done].
Qed.

Lemma step_foreign f u t ev w :
  db w !! lock_key f = Some (Entry u (Some t)) -> clock w <= t ->
  by_owner f u ev = false ->
  db (step ev w).2 !! lock_key f = db w !! lock_key f.
Proof.
  intros Hd Ht Hev. pose proof (held_live _ _ _ _ Hd Ht) as Hh.
  assert (owner_of w f = Some u) as Ho by (unfold owner_of; by rewrite Hh).
  destruct ev as [g v|g v|g v ttl|g|ms|l]; cbn [step]; rewrite ?observe_snd; try done.
  - destruct (decide (g = f)) as [->|Hne].
    + destruct (link w) as [e|] eqn:Hl.
      { by rewrite (acquire_lock_down _ _ _ _ e). }
      rewrite acquire_lock_eq by done. cbn zeta. by rewrite Hh.
    + apply (untouched_but_held g f w); [done | apply acquire_lock_untouched].
  - destruct (decide (g = f)) as [->|Hne].
    + destruct (link w) as [e|] eqn:Hl.
      { by rewrite (release_lock_down _ _ _ _ e). }
      rewrite release_lock_eq by done. cbn zeta.
      rewrite bool_decide_eq_false_2; [done|].
      rewrite Ho. intros [= ->]. cbn in Hev.
      by rewrite !bool_decide_eq_true_2 in Hev.
    + apply (untouched_but_held g f w); [done | apply release_lock_untouched].
  - destruct (decide (g = f)) as [->|Hne].
    + destruct (link w) as [e|] eqn:Hl.
      { by rewrite (extend_lock_down _ _ _ _ _ e). }
      rewrite extend_lock_eq by done. cbn zeta.
      rewrite bool_decide_eq_false_2; [done|].
      rewrite Ho. intros [= ->]. cbn in Hev.
      by rewrite !bool_decide_eq_true_2 in Hev.
    + apply (untouched_but_held g f w); [done | apply extend_lock_untouched].
  - destruct (decide (g = f)) as [->|Hne].
    + destruct (link w) as [e|] eqn:Hl.
      { by rewrite (get_lock_owner_down _ _ _ e). }
      by rewrite get_lock_owner_eq.
    + apply (untouched_but_held g f w); [done | apply get_lock_owner_untouched].
Qed.

(** X1.  A live lock is out of reach of everyone but its owner: along any
    history that holds no release and no renewal of the file in the owner's
    own name (acquires by anyone, releases and renewals in other names,
    reads, calls on other files, time passing, the connection failing), and
    that ends before the expiry, the entry keeps its owner and its expiry. *)
Theorem live_lock_protected f u t evs : forall w,
  db w !! lock_key f = Some (Entry u (Some t)) ->
  Forall (fun ev => by_owner f u ev = false) evs ->
  clock (run evs w).2 <= t ->
  db (run evs w).2 !! lock_key f = Some (Entry u (Some t)) /\
  held (run evs w).2 f = Some (Entry u (Some t)).
Proof.
  induction evs as [|ev evs IH]; intros w Hd Hall Ht.
  - cbn in *. split; [done | by apply held_live].
  - rewrite run_cons in *. cbn [snd] in *.
    apply Forall_cons in Hall as [Hev Hall].
    pose proof (run_clock evs (step ev w).2) as Hmono.
    pose proof (step_clock ev w) as Hstep.
    apply IH; [|done|done].
    rewrite (step_foreign f u t) by (done || lia). done.
Qed.

Lemma live_lock_protected_witness :
  let w := (acquire_lock init doc "A" fresh).2 in
  let evs := [Acquire doc "B"; Release doc "B"; Renew doc "B" 600; Tick 59000;
              Acquire doc "A"; Link (Some ConnectionError); Release doc "B";
              Link None; Renew "doc/2.md" "A" 0; Tick 1000; GetOwner doc] in
  db w !! lock_key doc = Some (Entry "A" (Some 60000)) /\
  Forall (fun ev => by_owner doc "A" ev = false) evs /\
  clock (run evs w).2 <= 60000 /\
  held (run evs w).2 doc = Some (Entry "A" (Some 60000)).
Proof.
  cbv zeta.
  assert (db (acquire_lock init doc "A" fresh).2 !! lock_key doc
          = Some (Entry "A" (Some 60000))) as Hd by (vm_compute; reflexivity).
  split; [exact Hd|].
  match goal with |- Forall ?P ?l /\ _ =>
    assert (Forall P l) as Hall by (repeat constructor) end.
  split; [exact Hall|].
  match goal with |- ?c <= 60000 /\ _ =>
    assert (c <= 60000) as Ht by (vm_compute; discriminate) end.
  split; [exact Ht|].
  exact (proj2 (live_lock_protected doc "A" 60000 _ _ Hd Hall Ht)).
Defined.

(** ** How long a lease lasts *)

Lemma answers_free f w :
  link w = None -> held w f = None ->
  (get_lock_owner init f w).1 = inr None /\
  (forall u, (acquire_lock init f u w).1 = inr true) /\
  (forall u, (release_lock init f u w).1 = inr false) /\
  (forall u ttl, (extend_lock init f u ttl w).1 = inr false).
Proof.
  intros Hl Hh.
  assert (owner_of w f = None) as Ho by (unfold owner_of; by rewrite Hh).
  split; [|split; [|split]].
  - rewrite get_lock_owner_eq by done. by rewrite Ho.
  - intros u. rewrite acquire_lock_eq by done. cbn zeta. by rewrite Hh.
  - intros u. rewrite release_lock_eq by done. cbn zeta.
    by rewrite bool_decide_eq_false_2 by (by rewrite Ho).
  - intros u ttl. rewrite extend_lock_eq by done. cbn zeta.
    by rewrite bool_decide_eq_false_2 by (by rewrite Ho).
Qed.

Lemma answers_held f u e w :
  link w = None -> held w f = Some e -> value e = u ->
  (u <> ""%string ->
     (get_lock_owner init f w).1
     = if valid_utf8 u then inr (Some u) else inl UnicodeDecodeError) /\
  (forall u', (acquire_lock init f u' w).1 = inr false) /\
  (release_lock init f u w).1 = inr true /\
  (forall ttl, expirable (clock w) ttl -> (extend_lock init f u ttl w).1 = inr true).
Proof.
  intros Hl Hh Hv.
  assert (owner_of w f = Some u) as Ho by (unfold owner_of; by rewrite Hh, <- Hv).
  split; [|split; [|split]].
  - intros Hu. rewrite get_lock_owner_eq by done. rewrite Ho.
    by rewrite bool_decide_eq_false_2.
  - intros u'. rewrite acquire_lock_eq by done. cbn zeta. by rewrite Hh.
  - rewrite release_lock_eq by done. cbn zeta. by rewrite bool_decide_eq_true_2.
  - intros ttl Hok. rewrite extend_lock_eq by done. cbn zeta.
    rewrite bool_decide_eq_true_2 by done. by rewrite (expire_error_expirable _ _ Hok).
Qed.

(** The four answers [ms] milliseconds after the dictionary holds the lock
    of [f] for [u] until [t]. *)
Lemma answers_at f u t ms w :
  link w = None -> db w !! lock_key f = Some (Entry u (Some t)) -> u <> ""%string ->
  let alive := bool_decide (clock w + Z.of_N ms <= t) in
  (get_lock_owner init f (elapse ms w)).1
  = (if alive then (if valid_utf8 u then inr (Some u) else inl UnicodeDecodeError)
     else inr None) /\
  (forall u', (acquire_lock init f u' (elapse ms w)).1 = inr (negb alive)) /\
  (release_lock init f u (elapse ms w)).1 = inr alive /\
  (forall ttl, expirable (clock (elapse ms w)) ttl ->
     (extend_lock init f u ttl (elapse ms w)).1 = inr alive) /\
  (alive = false -> forall ttl, (extend_lock init f u ttl (elapse ms w)).1 = inr false).
Proof.
  intros Hl Hd Hu alive. subst alive.
  assert (link (elapse ms w) = None) as Hl2 by done.
  assert (db (elapse ms w) !! lock_key f = Some (Entry u (Some t))) as Hd2 by done.
  assert (clock (elapse ms w) = clock w + Z.of_N ms) as Hc by done.
  case_bool_decide as Ht.
  - assert (held (elapse ms w) f = Some (Entry u (Some t))) as Hh
      by (apply held_live; [done | lia]).
    destruct (answers_held f u _ (elapse ms w) Hl2 Hh eq_refl) as (Hg & Ha & Hr & He).
    rewrite Hg, Hr by done. repeat split; done.
  - assert (held (elapse ms w) f = None) as Hh
      by (apply (held_dead _ _ u t); [done | lia]).
    destruct (answers_free f (elapse ms w) Hl2 Hh) as (Hg & Ha & Hr & He).
    rewrite Hg, Hr. repeat split; done.
Qed.



Lemma extend_lock_granted f u ttl w w1 :
  extend_lock init f u ttl w = (inr true, w1) ->
  link w = None /\ owner_of w f = Some u /\
  w1 = after w (EVAL extend_script [lock_key f] [u; py_str ttl])
         (if ttl <=? 0 then delete (lock_key f) (db w)
          else <[lock_key f := Entry u (Some (clock w + 1000 * ttl))]> (db w)).
Proof.
  intros H. destruct (link w) as [e|] eqn:Hl.
  { by rewrite (extend_lock_down _ _ _ _ _ e) in H. }
  rewrite extend_lock_eq in H by done. cbn zeta in H.
  case_bool_decide; [destruct (expire_error (clock w) ttl)|]; by simplify_eq.
Qed.

(** X3.  A granted renewal replaces what was left of the lease: from then on
    the lock is held for exactly [ttl] seconds, be that longer or shorter
    than before, and a renewal with a ttl that is not positive gives the
    lock up at once (get_owner answers none and any acquire is granted).
    While the lock is held get_owner names the owner, a str, whose stored
    bytes are well-formed UTF-8; bytes that are not make the decoding
    raise. *)
Theorem renewal_replaces_lease f u ttl w w1 ms
    (Hren : extend_lock init f u ttl w = (inr true, w1)) (Hu : u <> ""%string) :
  let alive := bool_decide (0 < ttl) && bool_decide (Z.of_N ms <= 1000 * ttl) in
  (get_lock_owner init f (elapse ms w1)).1
  = (if alive then (if valid_utf8 u then inr (Some u) else inl UnicodeDecodeError)
     else inr None) /\
  (forall u', (acquire_lock init f u' (elapse ms w1)).1 = inr (negb alive)).
Proof.
  apply extend_lock_granted in Hren as (Hl & Ho & ->). cbn zeta.
  destruct (Z.leb_spec ttl 0) as [Hle|Hlt].
  - rewrite (bool_decide_eq_false_2 (0 < ttl)) by lia. cbn [andb negb].
    destruct (answers_free f (elapse ms
      (after w (EVAL extend_script [lock_key f] [u; py_str ttl])
         (delete (lock_key f) (db w))))) as (Hg & Ha & _); [done | apply held_delete |].
    split; [exact Hg | exact Ha].
  - rewrite (bool_decide_eq_true_2 (0 < ttl)) by lia. cbn [andb].
    set (w1 := after w _ _).
    pose proof (answers_at f u (clock w + 1000 * ttl) ms w1) as H. cbn zeta in H.
    replace (bool_decide (Z.of_N ms <= 1000 * ttl))
      with (bool_decide (clock w1 + Z.of_N ms <= clock w + 1000 * ttl)).
    + destruct H as (Hg & Ha & _); [done | | done |].
      * unfold w1. cbn. by rewrite lookup_insert_eq.
      * split; [exact Hg | exact Ha].
    + apply bool_decide_ext. unfold w1. cbn. lia.
Qed.

(** A holds the document and renews for 5 seconds, then for none. *)
Lemma renewal_replaces_lease_witness :
  let w := (acquire_lock init doc "A" fresh).2 in
  let w1 := (extend_lock init doc "A" 5 w).2 in
  let w2 := (extend_lock init doc "A" 0 w).2 in
  extend_lock init doc "A" 5 w = (inr true, w1) /\
  extend_lock init doc "A" 0 w = (inr true, w2) /\
  "A"%string <> ""%string /\
  (get_lock_owner init doc (elapse 5000 w1)).1 = inr (Some "A"%string) /\
  (acquire_lock init doc "B" (elapse 5001 w1)).1 = inr true /\
  (acquire_lock init doc "B" (elapse 0 w2)).1 = inr true.
Proof.
  cbv zeta.
  assert (extend_lock init doc "A" 5 (acquire_lock init doc "A" fresh).2
          = (inr true, (extend_lock init doc "A" 5 (acquire_lock init doc "A" fresh).2).2))
    as H5 by (vm_compute; reflexivity).
  assert (extend_lock init doc "A" 0 (acquire_lock init doc "A" fresh).2
          = (inr true, (extend_lock init doc "A" 0 (acquire_lock init doc "A" fresh).2).2))
    as H0 by (vm_compute; reflexivity).
  assert ("A"%string <> ""%string) as Hu by (by intros [=]).
  split; [exact H5|]. split; [exact H0|]. split; [exact Hu|].
  destruct (renewal_replaces_lease doc "A" 5 _ _ 5000 H5 Hu) as (Hg & _).
  destruct (renewal_replaces_lease doc "A" 5 _ _ 5001 H5 Hu) as (_ & Ha).
  destruct (renewal_replaces_lease doc "A" 0 _ _ 0 H0 Hu) as (_ & Ha0).
  split; [exact Hg|]. split; [apply Ha | apply Ha0].
Defined.

(** ** Reading the owner *)

(** X4.  get_owner only reads: whatever the world, it leaves the dictionary,
    the clock and the connection as they were.  On a reachable store it
    answers none when no live entry exists or the live owner is the empty
    string, it names the live owner when the stored bytes are a non-empty
    well-formed UTF-8 string, and it raises UnicodeDecodeError when they are
    not well-formed UTF-8. *)
Theorem get_lock_owner_reads_only self f w :
  db (get_lock_owner self f w).2 = db w /\
  clock (get_lock_owner self f w).2 = clock w /\
  link (get_lock_owner self f w).2 = link w /\
  (link w = None ->
     (owner_of w f = None -> (get_lock_owner self f w).1 = inr None) /\
     (owner_of w f = Some ""%string -> (get_lock_owner self f w).1 = inr None) /\
     (forall u, owner_of w f = Some u -> u <> ""%string -> valid_utf8 u = true ->
        (get_lock_owner self f w).1 = inr (Some u)) /\
     (forall u, owner_of w f = Some u -> valid_utf8 u = false ->
        (get_lock_owner self f w).1 = inl UnicodeDecodeError)).
Proof.
  destruct (link w) as [e|] eqn:Hl.
  - rewrite (get_lock_owner_down _ _ _ e) by done. cbn [fst snd].
    repeat split; done.
  - rewrite get_lock_owner_eq by done. cbn [fst snd].
    split; [done|]. split; [done|]. split; [done|]. intros _.
    split; [by intros ->|]. split; [by intros ->|]. split.
    + intros u -> Hu Hv. by rewrite bool_decide_eq_false_2, Hv.
    + intros u -> Hv. rewrite bool_decide_eq_false_2; [by rewrite Hv|].
      by intros ->.
Qed.

(** A store in which the document's lock holds the single byte 0xFF. *)
Lemma get_lock_owner_reads_only_witness :
  let w := Redis {[ lock_key doc := Entry (String "255"%char "") None ]} 0 [] None in
  (get_lock_owner init doc w).1 = inl UnicodeDecodeError /\
  db (get_lock_owner init doc w).2 = db w.
Proof.
  cbv zeta.
  destruct (get_lock_owner_reads_only init doc
              (Redis {[ lock_key doc := Entry (String "255"%char "") None ]} 0 [] None))
    as (Hdb & _ & _ & Hup).
  destruct (Hup eq_refl) as (_ & _ & _ & Hbad).
  split; [|exact Hdb].
  apply (Hbad (String "255"%char "")); vm_compute; reflexivity.
Defined.

(** ** What the dictionary holds *)

Lemma well_kept_insert d f u t :
  well_kept d -> well_kept (<[lock_key f := Entry u (Some t)]> d).
Proof.
  intros Hk k e. destruct (decide (k = lock_key f)) as [->|Hne].
  - rewrite lookup_insert_eq. intros [= <-]. split; [by exists f | by eexists].
  - rewrite lookup_insert_ne by done. apply Hk.
Qed.

Lemma well_kept_delete d k : well_kept d -> well_kept (delete k d).
Proof.
  intros Hk k' e. destruct (decide (k' = k)) as [->|Hne].
  - by rewrite lookup_delete_eq.
  - rewrite lookup_delete_ne by done. apply Hk.
Qed.

Lemma step_well_kept ev w : well_kept (db w) -> well_kept (db (step ev w).2).
Proof.
  intros Hk. destruct ev as [g u|g u|g u ttl|g|ms|l]; cbn [step];
    rewrite ?observe_snd; try done.
  - destruct (link w) as [e|] eqn:Hl.
    { by rewrite (acquire_lock_down _ _ _ _ e). }
    rewrite acquire_lock_eq by done. cbn zeta.
    destruct (held w g); cbn; [done | by apply well_kept_insert].
  - destruct (link w) as [e|] eqn:Hl.
    { by rewrite (release_lock_down _ _ _ _ e). }
    rewrite release_lock_eq by done. cbn zeta.
    case_bool_decide; cbn; [by apply well_kept_delete | done].
  - destruct (link w) as [e|] eqn:Hl.
    { by rewrite (extend_lock_down _ _ _ _ _ e). }
    rewrite extend_lock_eq by done. cbn zeta.
    case_bool_decide; [destruct (expire_error (clock w) ttl)|]; cbn; [done| |done].
    destruct (ttl <=? 0); [by apply well_kept_delete | by apply well_kept_insert].
  - destruct (link w) as [e|] eqn:Hl.
    { by rewrite (get_lock_owner_down _ _ _ e). }
    by rewrite get_lock_owner_eq.
Qed.

(** X5.  The manager writes nothing but locks, and no lock without an
    expiry: if every key of the store is the key of a file's lock
    ("file_lock:" and the path) and every entry has an expiry, the same
    holds after any history of calls, so a lock whose holder has gone away
    always runs out. *)
Theorem locks_always_expire evs : forall w,
  well_kept (db w) -> well_kept (db (run evs w).2).
Proof.
  induction evs as [|ev evs IH]; intros w Hk; [done|].
  rewrite run_cons. cbn [snd]. by apply IH, step_well_kept.
Qed.

Lemma locks_always_expire_witness :
  let w := (run [Acquire doc "A"; Acquire "doc/2.md" "B"; Renew doc "A" 3600;
                 Tick 70000; Release "doc/2.md" "B"; Acquire "doc/2.md" "C"] fresh).2 in
  well_kept (db fresh) /\
  (exists f, lock_key doc = lock_key f) /\
  expire_at <$> db w !! lock_key doc = Some (Some 3600000) /\
  expire_at <$> db w !! lock_key "doc/2.md" = Some (Some 130000).
Proof.
  cbv zeta.
  assert (well_kept (db fresh)) as Hk
    by (intros k e H; cbn in H; by rewrite lookup_empty in H).
  split; [exact Hk|].
  pose proof (locks_always_expire
    [Acquire doc "A"; Acquire "doc/2.md" "B"; Renew doc "A" 3600;
     Tick 70000; Release "doc/2.md" "B"; Acquire "doc/2.md" "C"] fresh Hk
    (lock_key doc) (Entry "A" (Some 3600000))) as H.
  split; [apply H; vm_compute; reflexivity|].
  split; vm_compute; reflexivity.
Defined.

(** ** From one owner to the next *)

Lemma no_direct_transfer_call f u ev w :
  owner_of w f = Some u -> (forall ms, ev <> Tick ms) ->
  owner_of (step ev w).2 f = Some u \/
  (owner_of (step ev w).2 f = None /\ by_owner f u ev = true).
Proof.
  intros Ho Hev.
  destruct (held w f) as [[v t]|] eqn:Hh; [|by unfold owner_of in Ho; rewrite Hh in Ho].
  assert (v = u) as -> by (unfold owner_of in Ho; rewrite Hh in Ho; by simplify_eq/=).
  destruct (by_owner f u ev) eqn:Hby.
  - destruct ev as [g v|g v|g v ttl|g|ms|l]; try done; cbn in Hby;
      apply andb_true_iff in Hby as [Hg Hv];
      apply bool_decide_eq_true_1 in Hg as ->;
      apply bool_decide_eq_true_1 in Hv as ->; cbn [step]; rewrite observe_snd.
    + destruct (link w) as [e|] eqn:Hl.
      { rewrite (release_lock_down _ _ _ _ e) by done. by left. }
      rewrite release_lock_eq by done. cbn zeta.
      rewrite bool_decide_eq_true_2 by done. cbn [snd]. right. split; [|done].
      unfold owner_of. by rewrite held_after, held_delete.
    + destruct (link w) as [e|] eqn:Hl.
      { rewrite (extend_lock_down _ _ _ _ _ e) by done. by left. }
      rewrite extend_lock_eq by done. cbn zeta.
      rewrite bool_decide_eq_true_2 by done.
      destruct (expire_error (clock w) ttl); cbn [snd]; [by left|].
      destruct (Z.leb_spec ttl 0).
      * right. split; [|done]. unfold owner_of. by rewrite held_after, held_delete.
      * left. unfold owner_of. rewrite held_after, held_insert by lia. done.
  - left. unfold held, lookup_key in Hh.
    destruct (db w !! lock_key f) as [[v' t']|] eqn:Hd; [|done].
    destruct (live (clock w) (Entry v' t')) eqn:Hlive; [|done]. simplify_eq.
    assert (clock (step ev w).2 = clock w) as Hc.
    { destruct ev as [g v|g v|g v ttl|g|ms|l]; cbn [step]; rewrite ?observe_snd.
      - apply acquire_lock_untouched.
      - apply release_lock_untouched.
      - apply extend_lock_untouched.
      - apply get_lock_owner_untouched.
      - by destruct (Hev ms).
      - done. }
    assert (db (step ev w).2 !! lock_key f = Some (Entry u t)) as Hd'.
    { destruct t as [t|].
      - rewrite (step_foreign f u t); [done | done | | done].
        unfold live in Hlive. cbn in Hlive. by apply Z.leb_le.
      - (* an entry without expiry *)
        destruct ev as [g v|g v|g v ttl|g|ms|l]; cbn [step]; rewrite ?observe_snd;
          try done.
        + destruct (decide (g = f)) as [->|Hne];
            [|by rewrite (proj1 (untouched_but_held g f w _ Hne (acquire_lock_untouched g v w)))].
          destruct (link w) as [e|] eqn:Hl.
          { by rewrite (acquire_lock_down _ _ _ _ e). }
          rewrite acquire_lock_eq by done. cbn zeta.
          unfold held, lookup_key. by rewrite Hd, Hlive.
        + destruct (decide (g = f)) as [->|Hne];
            [|by rewrite (proj1 (untouched_but_held g f w _ Hne (release_lock_untouched g v w)))].
          destruct (link w) as [e|] eqn:Hl.
          { by rewrite (release_lock_down _ _ _ _ e). }
          rewrite release_lock_eq by done. cbn zeta.
          rewrite bool_decide_eq_false_2; [done|].
          rewrite Ho. intros [= ->]. cbn in Hby. by rewrite !bool_decide_eq_true_2 in Hby.
        + destruct (decide (g = f)) as [->|Hne];
            [|by rewrite (proj1 (untouched_but_held g f w _ Hne (extend_lock_untouched g v ttl w)))].
          destruct (link w) as [e|] eqn:Hl.
          { by rewrite (extend_lock_down _ _ _ _ _ e). }
          rewrite extend_lock_eq by done. cbn zeta.
          rewrite bool_decide_eq_false_2; [done|].
          rewrite Ho. intros [= ->]. cbn in Hby. by rewrite !bool_decide_eq_true_2 in Hby.
        + destruct (decide (g = f)) as [->|Hne];
            [|by rewrite (proj1 (untouched_but_held g f w _ Hne (get_lock_owner_untouched g w)))].
          destruct (link w) as [e|] eqn:Hl.
          { by rewrite (get_lock_owner_down _ _ _ e). }
          by rewrite get_lock_owner_eq. }
    unfold owner_of, held, lookup_key. rewrite Hd', Hc, Hlive. done.
Qed.

(** X6.  No step hands a lock over: if a file is held by [u], then after any
    single call of any method by anyone, any change of the connection or
    any lapse of time it is still held by [u] or held by nobody; and it is
    held by nobody only after a release or a renewal in [u]'s own name, or
    once time has passed. *)
Theorem no_direct_transfer f u ev w (Ho : owner_of w f = Some u) :
  owner_of (step ev w).2 f = Some u \/
  (owner_of (step ev w).2 f = None /\
   (by_owner f u ev = true \/ exists ms, ev = Tick ms)).
Proof.
  assert ((exists ms, ev = Tick ms) \/ forall ms, ev <> Tick ms) as [[ms ->]|Hno]
    by (destruct ev; eauto; by right).
  - cbn [step snd]. unfold owner_of, held, lookup_key in *. cbn [db clock].
    destruct (db w !! lock_key f) as [e|]; [|done].
    destruct (live (clock w) e); [|done]. simplify_eq/=.
    destruct (live _ e); [by left | right; eauto].
  - destruct (no_direct_transfer_call f u ev w Ho Hno) as [H|[H1 H2]];
      [by left | right; eauto].
Qed.

(** A holds the document: B's acquire leaves it A's, A's release frees it. *)
Lemma no_direct_transfer_witness :
  let w := (acquire_lock init doc "A" fresh).2 in
  owner_of w doc = Some "A"%string /\
  owner_of (step (Acquire doc "B") w).2 doc = Some "A"%string /\
  owner_of (step (Release doc "A") w).2 doc = None.
Proof.
  cbv zeta.
  assert (owner_of (acquire_lock init doc "A" fresh).2 doc = Some "A"%string) as Ho
    by (vm_compute; reflexivity).
  split; [exact Ho|]. split.
  - destruct (no_direct_transfer doc "A" (Acquire doc "B") _ Ho) as [H|[_ [H|[ms H]]]];
      [exact H | discriminate H | discriminate H].
  - destruct (no_direct_transfer doc "A" (Release doc "A") _ Ho) as [H|[H _]];
      [|exact H].
    exfalso. revert H. vm_compute. discriminate.
Defined.

(** ** Who the owner is *)

Lemma owner_granted_frame f w w' acc :
  clock w' = clock w -> db w' !! lock_key f = db w !! lock_key f ->
  owner_granted f w acc -> owner_granted f w' acc.
Proof. intros Hc Hd Hg e. rewrite Hc, Hd. apply Hg. Qed.

Lemma owner_granted_owner f w acc u :
  owner_granted f w acc -> owner_of w f = Some u -> acc = Some u.
Proof.
  intros Hg Ho. unfold owner_of, held, lookup_key in Ho.
  destruct (db w !! lock_key f) as [e|] eqn:Hd; [|done].
  destruct (live (clock w) e) eqn:Hlive; [|done]. simplify_eq/=. by apply Hg.
Qed.

Lemma run_last_grant f evs : forall w acc u,
  owner_granted f w acc ->
  owner_of (run evs w).2 f = Some u ->
  last_grant f acc (run evs w).1 = Some u.
Proof.
  induction evs as [|ev evs IH]; intros w acc u Hg Ho.
  - cbn in *. by eapply owner_granted_owner.
  - rewrite run_cons in *. cbn [fst snd] in *.
    destruct ev as [g v|g v|g v ttl|g|ms|l]; cbn [step last_grant] in *;
      rewrite ?observe_snd in *.
    + (* acquire *)
      destruct (link w) as [e|] eqn:Hl.
      { rewrite (acquire_lock_down _ _ _ _ e) in * by done. cbn in *. by eapply IH. }
      rewrite acquire_lock_eq in * by done. cbn zeta in *.
      destruct (held w g) as [e|] eqn:Hh; cbn [observe fst snd] in *.
      { eapply IH; [|done]. by eapply owner_granted_frame. }
      eapply IH; [|done]. case_bool_decide as Hgf; [subst g|].
      * intros e. cbn. rewrite lookup_insert_eq. by intros [= <-].
      * eapply owner_granted_frame; [| |done]; cbn; [done|].
        by rewrite lookup_insert_ne by by apply lock_key_ne.
    + (* release *)
      assert (owner_granted f (release_lock init g v w).2 acc) as Hg'.
      { destruct (link w) as [e|] eqn:Hl.
        { by rewrite (release_lock_down _ _ _ _ e). }
        rewrite release_lock_eq by done. cbn zeta.
        case_bool_decide; cbn [snd]; [|by eapply owner_granted_frame].
        intros e. cbn. destruct (decide (g = f)) as [->|Hne].
        - by rewrite lookup_delete_eq.
        - rewrite lookup_delete_ne by by apply lock_key_ne. apply Hg. }
      destruct (release_lock init g v w) as [[e|[|]] w1]; cbn in *; by eapply IH.
    + (* renew *)
      assert (owner_granted f (extend_lock init g v ttl w).2 acc) as Hg'.
      { destruct (link w) as [e|] eqn:Hl.
        { by rewrite (extend_lock_down _ _ _ _ _ e). }
        rewrite extend_lock_eq by done. cbn zeta.
        case_bool_decide as Hv; [destruct (expire_error (clock w) ttl)|]; cbn [snd];
          [by eapply owner_granted_frame| |by eapply owner_granted_frame].
        intros e. cbn. destruct (decide (g = f)) as [->|Hne].
        - destruct (ttl <=? 0); [by rewrite lookup_delete_eq|].
          rewrite lookup_insert_eq. intros [= <-] _. cbn.
          by eapply owner_granted_owner.
        - destruct (ttl <=? 0).
          + rewrite lookup_delete_ne by by apply lock_key_ne. apply Hg.
          + rewrite lookup_insert_ne by by apply lock_key_ne. apply Hg. }
      destruct (extend_lock init g v ttl w) as [[e|[|]] w1]; cbn in *; by eapply IH.
    + (* get_owner *)
      assert (owner_granted f (get_lock_owner init g w).2 acc) as Hg'.
      { destruct (link w) as [e|] eqn:Hl.
        { by rewrite (get_lock_owner_down _ _ _ e). }
        rewrite get_lock_owner_eq by done. cbn [snd].
        by apply (owner_granted_frame f w). }
      destruct (get_lock_owner init g w) as [[e|o] w1]; cbn in *; by eapply IH.
    + (* time passes *)
      eapply IH; [|done]. intros e. cbn. intros Hd Hlive. apply Hg; [done|].
      unfold live in *. destruct (expire_at e) as [t|]; [|done].
      apply Z.leb_le in Hlive. apply Z.leb_le. lia.
    + (* the connection changes *)
      eapply IH; [|done]. by eapply owner_granted_frame.
Qed.

(** X7.  Only a grant makes an owner: from a world in which the file has no
    live entry, after any history, whoever the store names as the file's
    owner is the user of the last acquire on that file that was answered
    true. *)
Theorem owner_is_last_grantee f w evs u
    (Hfree : held w f = None) (Ho : owner_of (run evs w).2 f = Some u) :
  last_grant f None (run evs w).1 = Some u.
Proof.
  apply run_last_grant; [|done].
  intros e Hd Hlive. unfold held, lookup_key in Hfree. by rewrite Hd, Hlive in Hfree.
Qed.

Lemma owner_is_last_grantee_witness :
  let evs := [Acquire doc "A"; Acquire doc "B"; Renew doc "A" 5; Tick 6000;
              Renew doc "A" 60; Acquire doc "C"; Acquire doc "A"; Release doc "A"] in
  held fresh doc = None /\
  owner_of (run evs fresh).2 doc = Some "C"%string /\
  last_grant doc None (run evs fresh).1 = Some "C"%string.
Proof.
  cbv zeta. split; [reflexivity|].
  match goal with |- ?P /\ _ => assert P as Ho by (vm_compute; reflexivity) end.
  split; [exact Ho|].
  exact (owner_is_last_grantee doc fresh _ "C" eq_refl Ho).
Defined.

(** * The module that builds the manager *)

Section DependenciesFacts.
Import Dependencies.
Variable accepts : string -> bool.

Lemma serve_cons c cs g :
  serve accepts (c :: cs) g
  = ((serve1 accepts c g).1 :: (serve accepts cs (serve1 accepts c g).2).1,
     (serve accepts cs (serve1 accepts c g).2).2).
Proof.
  cbn [serve]. destruct (serve1 accepts c g) as [o g1]. cbn [fst snd].
  destruct (serve accepts cs g1) as [os g2]. reflexivity.
Qed.

Lemma serve1_keeps c g :
  (forall x, _redis_client g = Some x -> _redis_client (serve1 accepts c g).2 = Some x) /\
  (forall m, _file_lock_manager g = Some m ->
     _file_lock_manager (serve1 accepts c g).2 = Some m).
Proof.
  destruct c; cbn [serve1]; try done.
  - unfold get_redis_client. split; intros x Hx.
    + by rewrite Hx.
    + destruct (_redis_client g); [done|]. by destruct (accepts _).
  - unfold get_file_lock_manager, get_redis_client. split; intros x Hx.
    + rewrite Hx. by destruct (_file_lock_manager g).
    + by rewrite Hx.
Qed.

Lemma serve1_coherent c g : coherent g -> coherent (serve1 accepts c g).2.
Proof.
  intros Hc. destruct c; cbn [serve1]; try done.
  - unfold get_redis_client. destruct (_redis_client g) as [x|] eqn:Hx; [done|].
    destruct (accepts _); [|done]. intros m Hm. cbn in *.
    specialize (Hc m Hm). congruence.
  - unfold get_file_lock_manager, get_redis_client.
    destruct (_file_lock_manager g) as [m|] eqn:Hm; [done|].
    destruct (_redis_client g) as [x|] eqn:Hx.
    + intros m [= <-]. cbn. done.
    + destruct (accepts _); [|exact Hc].
      intros m [= <-]. done.
Qed.

Lemma serve1_cached c g : coherent g -> cached (serve1 accepts c g).2 (serve1 accepts c g).1.
Proof.
  intros Hc. destruct c; cbn [serve1]; try done.
  - unfold get_redis_client. destruct (_redis_client g) as [x|] eqn:Hx; [done|].
    by destruct (accepts _).
  - unfold get_file_lock_manager, get_redis_client.
    destruct (_file_lock_manager g) as [m|] eqn:Hm; [by split; [|apply Hc]|].
    destruct (_redis_client g) as [x|] eqn:Hx; [done|].
    by destruct (accepts _).
Qed.

Lemma cached_keeps c g o : cached g o -> cached (serve1 accepts c g).2 o.
Proof.
  destruct (serve1_keeps c g) as [Hk1 Hk2].
  destruct o as [[e|x]|[e|m]|]; cbn; try done.
  - apply Hk1.
  - intros [H1 H2]. split; [by apply Hk2 | by apply Hk1].
Qed.

Lemma serve_keeps_cached cs : forall g o,
  cached g o -> cached (serve accepts cs g).2 o.
Proof.
  induction cs as [|c cs IH]; intros g o Ho; [done|].
  rewrite serve_cons. cbn [snd]. by apply IH, cached_keeps.
Qed.

Lemma serve_cached cs : forall g,
  coherent g -> forall o, o ∈ (serve accepts cs g).1 -> cached (serve accepts cs g).2 o.
Proof.
  induction cs as [|c cs IH]; intros g Hc o Ho; [by apply elem_of_nil in Ho|].
  rewrite serve_cons in *. cbn [fst snd] in *.
  apply elem_of_cons in Ho as [->|Ho].
  - by apply serve_keeps_cached, serve1_cached.
  - by apply IH; [apply serve1_coherent|].
Qed.

(** X8.  The process has one manager and one client: whatever is done to
    the freshly imported module (requests for the client or the manager in
    any order, the environment changed in between), every request for the
    manager that succeeds hands out the same object, every request for the
    client that succeeds hands out the same object, and the manager's
    client is that client. *)
Theorem one_manager_one_client env cs :
  let outs := (serve accepts cs (start env)).1 in
  (forall m1 m2, OManager (inr m1) ∈ outs -> OManager (inr m2) ∈ outs -> m1 = m2) /\
  (forall c1 c2, OClient (inr c1) ∈ outs -> OClient (inr c2) ∈ outs -> c1 = c2) /\
  (forall m c, OManager (inr m) ∈ outs -> OClient (inr c) ∈ outs -> manager_redis m = c).
Proof.
  cbv zeta.
  assert (coherent (start env)) as Hc by (by intros m).
  pose proof (serve_cached cs (start env) Hc) as H.
  split; [|split].
  - intros m1 m2 H1 H2. apply H in H1 as [H1 _]. apply H in H2 as [H2 _].
    cbn in *. congruence.
  - intros c1 c2 H1 H2. apply H in H1. apply H in H2. cbn in *. congruence.
  - intros m c H1 H2. apply H in H1 as [_ H1]. apply H in H2. cbn in *. congruence.
Qed.

(** X9.  A client that cannot be built is not cached and neither is a
    manager: the failed call leaves the module as it was, so once the
    environment names a URL the library accepts the next call builds the
    manager on that URL, with the 60-second policy; from then on the
    environment is not read again. *)
Theorem failed_build_is_not_cached env url url'
    (Hurl : getenv (start env) "REDIS_URL" "redis://localhost:6379/0" = url)
    (Hbad : accepts url = false) (Hgood : accepts url' = true) :
  get_file_lock_manager accepts (start env) = (inl (ValueError url), start env) /\
  exists m g2,
    get_file_lock_manager accepts
      (serve1 accepts (Putenv "REDIS_URL" url') (start env)).2 = (inr m, g2) /\
    client_url (manager_redis m) = url' /\
    lock_ttl (manager_fields m) = 60 /\
    forall name value,
      (get_file_lock_manager accepts
         (serve1 accepts (Putenv name value) g2).2).1 = inr m.
Proof.
  split.
  - unfold get_file_lock_manager, get_redis_client. cbn [_file_lock_manager _redis_client start].
    by rewrite Hurl, Hbad.
  - unfold get_file_lock_manager, get_redis_client, getenv. cbn.
    rewrite lookup_insert_eq. cbn. rewrite Hgood. cbn.
    eexists _, _. split; [reflexivity|]. done.
Qed.

End DependenciesFacts.

(** Only URLs with the scheme [redis://] are taken here. *)
Lemma one_manager_one_client_witness :
  let accepts := String.prefix "redis://" in
  let outs := (Dependencies.serve accepts
                 [Dependencies.GetManager; Dependencies.Putenv "REDIS_URL" "redis://b";
                  Dependencies.GetClient; Dependencies.GetManager]
                 (Dependencies.start ∅)).1 in
  exists m c,
    outs = [Dependencies.OManager (inr m); Dependencies.ODone;
            Dependencies.OClient (inr c); Dependencies.OManager (inr m)] /\
    Dependencies.manager_redis m = c /\
    Dependencies.client_url c = "redis://localhost:6379/0"%string.
Proof.
  cbv zeta.
  destruct (one_manager_one_client (String.prefix "redis://") ∅
              [Dependencies.GetManager; Dependencies.Putenv "REDIS_URL" "redis://b";
               Dependencies.GetClient; Dependencies.GetManager]) as (_ & _ & Hmc).
  eexists _, _. split; [vm_compute; reflexivity|].
  split; [|reflexivity].
  apply Hmc; vm_compute.
  - apply list_elem_of_here.
  - do 2 apply list_elem_of_further. apply list_elem_of_here.
Defined.

Lemma failed_build_is_not_cached_witness :
  let accepts := String.prefix "redis://" in
  let env : gmap string string := {[ "REDIS_URL"%string := "http://cache"%string ]} in
  Dependencies.getenv (Dependencies.start env) "REDIS_URL" "redis://localhost:6379/0"
  = "http://cache"%string /\
  accepts "http://cache"%string = false /\
  accepts "redis://cache"%string = true /\
  Dependencies.get_file_lock_manager accepts (Dependencies.start env)
  = (inl (Dependencies.ValueError "http://cache"), Dependencies.start env).
Proof.
  cbv zeta. split; [reflexivity|]. split; [reflexivity|]. split; [reflexivity|].
  exact (proj1 (failed_build_is_not_cached (String.prefix "redis://")
                  {[ "REDIS_URL"%string := "http://cache"%string ]}
                  "http://cache" "redis://cache" eq_refl eq_refl eq_refl)).
Defined.

(** * Who may call *)

Section MiddlewareFacts.
Import Middleware.

(** The role a user dictionary stands for. *)
Lemma PERMISSIONS_get_known r p :
  p ∈ PERMISSIONS_get (JStr r) <->
  (r = "admin"%string /\ p ∈ ["read"; "write"; "delete"; "manage_users"]%string) \/
  (r = "editor"%string /\ p ∈ ["read"; "write"]%string) \/
  (r = "viewer"%string /\ p = "read"%string).
Proof.
  unfold PERMISSIONS_get, PERMISSIONS. cbn [dict_get].
  destruct (decide ("admin"%string = r)) as [<-|Ha].
  { rewrite bool_decide_eq_true_2 by done. cbn [default]. split; [by left|].
    by intros [[_ H]|[[? _]|[? _]]]. }
  rewrite bool_decide_eq_false_2 by done.
  destruct (decide ("editor"%string = r)) as [<-|He].
  { rewrite bool_decide_eq_true_2 by done. cbn [default]. split; [by right; left|].
    by intros [[? _]|[[_ H]|[? _]]]. }
  rewrite bool_decide_eq_false_2 by done.
  destruct (decide ("viewer"%string = r)) as [<-|Hv].
  { rewrite bool_decide_eq_true_2 by done. cbn [default]. split.
    - intros H. apply list_elem_of_singleton in H. by right; right.
    - intros [[? _]|[[? _]|[_ ->]]]; try done. by apply list_elem_of_singleton. }
  rewrite bool_decide_eq_false_2 by done. cbn [default]. split.
  - intros H. by apply elem_of_nil in H.
  - intros [[? _]|[[? _]|[? _]]]; congruence.
Qed.

(** X10.  The wrapper lets nothing through that the table does not grant:
    if the wrapped endpoint ran to a normal result, then the call carried a
    [current_user] that is a non-empty dictionary whose role (viewer when
    the dictionary has none) is admin, editor or viewer, spelled exactly so,
    and the table grants that role the permission; and the result is the
    endpoint's own. *)
Theorem endpoint_runs_only_if_permitted {A} permission
    (func : gmap string json -> error + A) kwargs a
    (Hok : require_permission permission func kwargs = inr a) :
  exists d r,
    kwargs !! "current_user"%string = Some (JDict d) /\ d <> [] /\
    default (JStr "viewer") (dict_get d "role") = JStr r /\
    ((r = "admin"%string /\ permission ∈ ["read"; "write"; "delete"; "manage_users"]%string) \/
     (r = "editor"%string /\ permission ∈ ["read"; "write"]%string) \/
     (r = "viewer"%string /\ permission = "read"%string)) /\
    func kwargs = inr a.
Proof.
  unfold require_permission in Hok. cbv zeta in Hok.
  destruct (kwargs !! "current_user"%string) as [cu|] eqn:Hcu;
    cbn [default] in Hok; [change (id cu) with cu in Hok | by cbn in Hok].
  destruct (truthy cu) eqn:Ht; [|discriminate Hok].
  destruct cu as [| | | |l|d]; try discriminate Hok.
  destruct (default (JStr "viewer") (dict_get d "role")) as [|b|n|r|l|d'] eqn:Hr;
    cbn [hashable_str] in Hok; try discriminate Hok.
  case_bool_decide as Hp; [|done].
  exists d, r. split; [done|]. split; [by destruct d|]. split; [done|].
  split; [|done]. by apply PERMISSIONS_get_known.
Qed.

(** A call with the keyword arguments [kwargs] and the user [d]. *)
Lemma require_permission_user {A} permission (func : gmap string json -> error + A)
    kwargs d r :
  kwargs !! "current_user"%string = Some (JDict d) -> d <> [] ->
  default (JStr "viewer") (dict_get d "role") = JStr r ->
  require_permission permission func kwargs =
    if bool_decide (permission ∈ PERMISSIONS_get (JStr r)) then func kwargs
    else inl (HTTPException 403
                ("Insufficient permissions. Role '" +:+ r +:+ "' cannot '"
                 +:+ permission +:+ "'.")).
Proof.
  intros Hcu Hd Hr. unfold require_permission. cbv zeta. rewrite Hcu.
  cbn [default]. change (id (JDict d)) with (JDict d).
  destruct d; [done|]. cbn [truthy]. by rewrite Hr.
Qed.

(** X11.  The roles are ranked: whatever the table lets a viewer do it lets
    an editor do, and whatever it lets an editor do it lets an admin do;
    a role spelled in any other way than these three, and a permission
    other than the four of the table, are refused with 403, the endpoint
    not being run. *)
Theorem roles_are_ranked {A} permission (func : gmap string json -> error + A)
    kwargs d r
    (Hcu : kwargs !! "current_user"%string = Some (JDict d)) (Hd : d <> [])
    (Hr : default (JStr "viewer") (dict_get d "role") = JStr r) :
  let through := require_permission permission func kwargs = func kwargs in
  let refused := exists detail,
    require_permission permission func kwargs = inl (HTTPException 403 detail) in
  (permission ∈ PERMISSIONS_get (JStr "viewer") ->
     r = "editor"%string \/ r = "admin"%string -> through) /\
  (permission ∈ PERMISSIONS_get (JStr "editor") -> r = "admin"%string -> through) /\
  (r <> "admin"%string -> r <> "editor"%string -> r <> "viewer"%string -> refused) /\
  (permission ∉ ["read"; "write"; "delete"; "manage_users"]%string -> refused).
Proof.
  cbv zeta. rewrite (require_permission_user permission func kwargs d r) by done.
  split; [|split; [|split]].
  - intros Hp Hrole. rewrite bool_decide_eq_true_2; [done|].
    apply PERMISSIONS_get_known in Hp as [[? _]|[[? _]|[_ ->]]]; try done.
    apply PERMISSIONS_get_known. destruct Hrole as [-> | ->].
    + right. left. split; [done|]. apply list_elem_of_here.
    + left. split; [done|]. apply list_elem_of_here.
  - intros Hp ->. rewrite bool_decide_eq_true_2; [done|].
    apply PERMISSIONS_get_known in Hp as [[? _]|[[_ Hp]|[? _]]]; try done.
    apply PERMISSIONS_get_known. left. split; [done|].
    apply elem_of_cons in Hp as [->|Hp]; [apply list_elem_of_here|].
    apply list_elem_of_singleton in Hp as ->. apply list_elem_of_further, list_elem_of_here.
  - intros H1 H2 H3. rewrite bool_decide_eq_false_2; [by eexists|].
    intros Hp. apply PERMISSIONS_get_known in Hp as [[? _]|[[? _]|[? _]]]; done.
  - intros Hp. rewrite bool_decide_eq_false_2; [by eexists|].
    intros Hin. apply Hp.
    apply PERMISSIONS_get_known in Hin as [[_ H]|[[_ H]|[_ ->]]]; [done| |].
    + apply elem_of_cons in H as [->|H]; [apply list_elem_of_here|].
      apply list_elem_of_singleton in H as ->. apply list_elem_of_further, list_elem_of_here.
    + apply list_elem_of_here.
Qed.

(** *** The user of a token *)

Section AuthFacts.
Variable jwt_decode jwt_decode' : string -> string -> list string -> jose_result.
Variable jwt_get_unverified_claims : string -> jose_result.
Variable lower : string -> string.

Lemma role_of_known payload role :
  role_of lower payload = inr role ->
  role = "admin"%string \/ role = "editor"%string \/ role = "viewer"%string.
Proof.
  unfold role_of. cbv zeta. destruct (truthy _); [intros [= <-]; by left|].
  destruct (match default (JList []) (dict_get payload "roles") with
            | JList l => role_names_of lower l
            | _ => inr []
            end) as [e|names]; [done|].
  case_bool_decide; [intros [= <-]; by left|].
  case_bool_decide; [intros [= <-]; by right; left|].
  destruct (_ && _); intros [= <-]; auto.
Qed.

(** X12.  Whoever gets past [get_current_user] may read: the user it
    returns is a dictionary of an id, a username and a role, the role is
    admin, editor or viewer, and an endpoint wrapped for the permission
    "read" and called with that user is run. *)
Theorem authenticated_user_may_read environ files token user
    (Huser : get_current_user jwt_decode jwt_get_unverified_claims lower
               environ files token = inr user) :
  (exists user_id username role,
     user = JDict [("id"%string, user_id); ("username"%string, username);
                   ("role"%string, JStr role)] /\
     (role = "admin"%string \/ role = "editor"%string \/ role = "viewer"%string)) /\
  forall A (func : gmap string json -> error + A) kwargs,
    require_permission "read" func (<["current_user"%string := user]> kwargs)
    = func (<["current_user"%string := user]> kwargs).
Proof.
  unfold get_current_user in Huser. cbv zeta in Huser.
  destruct (claims_of_token _ _ _ _ _) as [payload|msg|msg]; [|done|done].
  destruct (role_of lower payload) as [e|role] eqn:Hrole; [done|].
  injection Huser as <-. pose proof (role_of_known _ _ Hrole) as Hknown.
  split; [by eexists _, _, _|].
  intros A func kwargs.
  erewrite (require_permission_user "read" func _ _ role);
    [|by rewrite lookup_insert_eq|done|done].
  rewrite bool_decide_eq_true_2; [done|].
  apply PERMISSIONS_get_known. destruct Hknown as [-> | [-> | ->]].
  - left. split; [done|]. apply list_elem_of_here.
  - right. left. split; [done|]. apply list_elem_of_here.
  - right. right. done.
Qed.

(** X13.  Without a key, no signature is checked: when the key file named
    by the environment exists but is empty (whatever key the environment
    itself may give), or when the environment names neither a file nor a
    key, the verifying decoder has no say in the outcome: the user is made
    from the unverified claims of the token. *)
Theorem no_key_no_verification environ files token
    (Hkey : (exists key_path,
               environ !! "CASDOOR_PUBLIC_KEY_PATH"%string = Some key_path /\
               key_path <> ""%string /\ files !! key_path = Some (File "")) \/
            (environ !! "CASDOOR_PUBLIC_KEY_PATH"%string = None /\
             environ !! "CASDOOR_PUBLIC_KEY"%string = None)) :
  get_current_user jwt_decode jwt_get_unverified_claims lower environ files token
  = get_current_user jwt_decode' jwt_get_unverified_claims lower environ files token /\
  forall payload role,
    jwt_get_unverified_claims token = Claims payload ->
    role_of lower payload = inr role ->
    exists user_id username,
      get_current_user jwt_decode jwt_get_unverified_claims lower environ files token
      = inr (JDict [("id"%string, user_id); ("username"%string, username);
                    ("role"%string, JStr role)]).
Proof.
  assert (get_public_key environ files = inr (Some ""%string) \/
          get_public_key environ files = inr None) as Hk.
  { unfold get_public_key. cbv zeta. destruct Hkey as [(p & Hp & Hne & Hf)|[Hp Hc]].
    - rewrite Hp, Hf. rewrite bool_decide_eq_false_2 by done. by left.
    - rewrite Hp, Hc. by right. }
  unfold get_current_user, claims_of_token. cbv zeta.
  destruct Hk as [-> | ->]; rewrite ?bool_decide_eq_true_2 by done.
  - split; [done|]. intros payload role -> ->. by eexists _, _.
  - split; [done|]. intros payload role -> ->. by eexists _, _.
Qed.

Lemma role_names_of_bad l d x :
  JDict d ∈ l -> dict_get d "name" = Some x -> (forall s, x <> JStr s) ->
  role_names_of lower l = inl (AttributeError "object has no attribute 'lower'").
Proof.
  intros Hin Hname Hx. induction l as [|r l IH]; [by apply elem_of_nil in Hin|].
  apply elem_of_cons in Hin as [<-|Hin].
  - cbn [role_names_of]. rewrite Hname. cbn [default from_option id].
    destruct x; try done. by destruct (Hx s).
  - specialize (IH Hin). cbn [role_names_of]. rewrite IH.
    destruct r as [| | |s|l'|d']; try done.
    by destruct (default (JStr "") (dict_get d' "name")).
Qed.

(** X14.  A role whose name is not a string breaks the call: for a token
    whose claims do not set isAdmin and whose roles list holds a dictionary
    with a name that is present and is not a string (null or a number,
    say), [get_current_user] raises an AttributeError, not the 401 of an
    invalid token, and returns no user. *)
Theorem malformed_role_name_raises environ files token payload l d x
    (Hclaims : claims_of_token jwt_decode jwt_get_unverified_claims environ files token
               = Claims payload)
    (Hadmin : truthy (default (JBool false) (dict_get payload "isAdmin")) = false)
    (Hroles : dict_get payload "roles" = Some (JList l))
    (Hin : JDict d ∈ l) (Hname : dict_get d "name" = Some x)
    (Hx : forall s, x <> JStr s) :
  get_current_user jwt_decode jwt_get_unverified_claims lower environ files token
  = inl (AttributeError "object has no attribute 'lower'").
Proof.
  unfold get_current_user. cbv zeta. rewrite Hclaims.
  unfold role_of. cbv zeta. rewrite Hadmin, Hroles. cbn [default from_option id].
  by rewrite (role_names_of_bad l d x).
Qed.

End AuthFacts.
End MiddlewareFacts.

(** An editor saves a file. *)
Lemma endpoint_runs_only_if_permitted_witness :
  let kwargs : gmap string Middleware.json :=
    {[ "current_user"%string :=
         Middleware.JDict [("id"%string, Middleware.JStr "u1");
                           ("role"%string, Middleware.JStr "editor")] ]} in
  let func : gmap string Middleware.json -> Middleware.error + string :=
    fun _ => inr "saved"%string in
  Middleware.require_permission "write" func kwargs = inr "saved"%string /\
  func kwargs = inr "saved"%string.
Proof.
  cbv zeta.
  match goal with |- ?P /\ _ => assert P as Hok by (vm_compute; reflexivity) end.
  split; [exact Hok|].
  destruct (endpoint_runs_only_if_permitted _ _ _ _ Hok) as (d & r & _ & _ & _ & _ & Hf).
  exact Hf.
Defined.

(** An admin reads; a user whose role is spelled "Admin" does not. *)
Lemma roles_are_ranked_witness :
  let user r : gmap string Middleware.json :=
    {[ "current_user"%string := Middleware.JDict [("role"%string, Middleware.JStr r)] ]} in
  let func : gmap string Middleware.json -> Middleware.error + string :=
    fun _ => inr "contents"%string in
  user "admin" !! "current_user"%string
  = Some (Middleware.JDict [("role"%string, Middleware.JStr "admin")]) /\
  Middleware.require_permission "read" func (user "admin") = func (user "admin") /\
  exists detail,
    Middleware.require_permission "read" func (user "Admin")
    = inl (Middleware.HTTPException 403 detail).
Proof.
  cbv zeta. split; [reflexivity|].
  destruct (roles_are_ranked "read"
              (fun _ : gmap string Middleware.json =>
                 inr "contents"%string : Middleware.error + string)
              {[ "current_user"%string :=
                   Middleware.JDict [("role"%string, Middleware.JStr "admin")] ]}
              [("role"%string, Middleware.JStr "admin")] "admin"
              (lookup_singleton_eq _ _) ltac:(done) eq_refl) as (Hv & _).
  destruct (roles_are_ranked "read"
              (fun _ : gmap string Middleware.json =>
                 inr "contents"%string : Middleware.error + string)
              {[ "current_user"%string :=
                   Middleware.JDict [("role"%string, Middleware.JStr "Admin")] ]}
              [("role"%string, Middleware.JStr "Admin")] "Admin"
              (lookup_singleton_eq _ _) ltac:(done) eq_refl) as (_ & _ & Hunknown & _).
  split.
  - apply Hv; [apply list_elem_of_here | by right].
  - by apply Hunknown.
Defined.

(** A token library that rejects every signature and reads the claims of
    the one token below; no name needs lowering. *)
Lemma authenticated_user_may_read_witness :
  let decode : string -> string -> list string -> Middleware.jose_result :=
    fun _ _ _ => Middleware.JWTError "Signature verification failed." in
  let unverified : string -> Middleware.jose_result :=
    fun _ => Middleware.Claims
               [("sub"%string, Middleware.JStr "u1"); ("name"%string, Middleware.JStr "ann");
                ("roles"%string, Middleware.JList [Middleware.JStr "guest"])] in
  let user := Middleware.JDict
                [("id"%string, Middleware.JStr "u1");
                 ("username"%string, Middleware.JStr "ann");
                 ("role"%string, Middleware.JStr "viewer")] in
  let func : gmap string Middleware.json -> Middleware.error + string :=
    fun _ => inr "contents"%string in
  Middleware.get_current_user decode unverified (fun s => s) ∅ ∅ "token" = inr user /\
  Middleware.require_permission "read" func (<["current_user"%string := user]> ∅)
  = inr "contents"%string.
Proof.
  cbv zeta.
  match goal with |- ?P /\ _ => assert P as Huser by (vm_compute; reflexivity) end.
  split; [exact Huser|].
  destruct (authenticated_user_may_read _ _ _ _ _ _ _ Huser) as [_ Hread].
  apply (Hread string (fun _ => inr "contents"%string) ∅).
Defined.

(** The key file is there and empty, the environment holds a key all the
    same: the token is taken unverified. *)
Lemma no_key_no_verification_witness :
  let decode : string -> string -> list string -> Middleware.jose_result :=
    fun _ _ _ => Middleware.JWTError "Signature verification failed." in
  let unverified : string -> Middleware.jose_result :=
    fun _ => Middleware.Claims [("sub"%string, Middleware.JStr "u1");
                                ("isAdmin"%string, Middleware.JBool true)] in
  let environ : gmap string string :=
    {[ "CASDOOR_PUBLIC_KEY_PATH"%string := "/keys/casdoor.pem"%string;
       "CASDOOR_PUBLIC_KEY"%string := "-----BEGIN PUBLIC KEY-----"%string ]} in
  let files : gmap string Middleware.node :=
    {[ "/keys/casdoor.pem"%string := Middleware.File "" ]} in
  (environ !! "CASDOOR_PUBLIC_KEY_PATH"%string = Some "/keys/casdoor.pem"%string /\
   files !! "/keys/casdoor.pem"%string = Some (Middleware.File "")) /\
  exists user_id username,
    Middleware.get_current_user decode unverified (fun s => s) environ files "forged"
    = inr (Middleware.JDict [("id"%string, user_id); ("username"%string, username);
                             ("role"%string, Middleware.JStr "admin")]).
Proof.
  cbv zeta. split; [split; reflexivity|].
  refine (proj2 (no_key_no_verification
            (fun _ _ _ => Middleware.JWTError "Signature verification failed.")
            (fun _ _ _ => Middleware.JWTError "Signature verification failed.")
            (fun _ => Middleware.Claims [("sub"%string, Middleware.JStr "u1");
                                         ("isAdmin"%string, Middleware.JBool true)])
            (fun s => s) _ _ "forged" _) _ "admin" eq_refl eq_refl).
  left. exists "/keys/casdoor.pem"%string. repeat split; done.
Defined.

(** A role whose name is null. *)
Lemma malformed_role_name_raises_witness :
  let decode : string -> string -> list string -> Middleware.jose_result :=
    fun _ _ _ => Middleware.JWTError "Signature verification failed." in
  let payload :=
    [("sub"%string, Middleware.JStr "u1");
     ("roles"%string,
      Middleware.JList [Middleware.JStr "editor";
                        Middleware.JDict [("name"%string, Middleware.JNull)]])] in
  let unverified : string -> Middleware.jose_result := fun _ => Middleware.Claims payload in
  Middleware.claims_of_token decode unverified ∅ ∅ "token" = Middleware.Claims payload /\
  Middleware.get_current_user decode unverified (fun s => s) ∅ ∅ "token"
  = inl (Middleware.AttributeError "object has no attribute 'lower'").
Proof.
  cbv zeta. split; [reflexivity|].
  apply (malformed_role_name_raises _ _ _ ∅ ∅ "token"
           [("sub"%string, Middleware.JStr "u1");
            ("roles"%string,
             Middleware.JList [Middleware.JStr "editor";
                               Middleware.JDict [("name"%string, Middleware.JNull)]])]
           [Middleware.JStr "editor"; Middleware.JDict [("name"%string, Middleware.JNull)]]
           [("name"%string, Middleware.JNull)] Middleware.JNull);
    [reflexivity | reflexivity | reflexivity | | reflexivity | done].
  apply list_elem_of_further, list_elem_of_here.
Defined.

(** The key path names a directory: reading it raises, before any token is
    looked at. *)
Example unreadable_key_path_raises :
  Middleware.get_current_user
    (fun _ _ _ => Middleware.Claims []) (fun _ => Middleware.Claims []) (fun s => s)
    {[ "CASDOOR_PUBLIC_KEY_PATH"%string := "/keys"%string ]}
    {[ "/keys"%string := Middleware.Unreadable "IsADirectoryError" ]} "token"
  = inl (Middleware.OtherError "IsADirectoryError").
Proof. vm_compute. reflexivity. Qed.
